(** * ModuleLoader: module loading and resolution core

    A shallow embedding of [src/ModuleLoader.ts].  Synchronous code is written
    as state passing over the loader state; asynchronous functions are
    programs of a small free monad whose suspension points are the [await]s of
    the source, run by a scheduler-driven machine that interleaves the
    activations exactly at those points. *)

From stdpp Require Import base option list gmap strings sorting.
From Stdlib Require Import Lia.

Set Default Proof Using "Type".
Open Scope string_scope.
Open Scope list_scope.

(** ** JavaScript values used by the loader *)

(** [id.startsWith('\0')] *)
Definition startsWithNul (id : string) : bool :=
  match id with
  | String c _ => Ascii.eqb c Ascii.zero
  | EmptyString => false
  end.

(** A value of type [boolean | null | undefined], as user callables return. *)
Inductive UserBool := UTrue | UFalse | UNull | UUndefined.

Definition truthy (v : UserBool) : bool :=
  match v with UTrue => true | _ => false end.

(** [v !== false] *)
Definition notFalse (v : UserBool) : bool :=
  match v with UFalse => false | _ => true end.

(** A [RegExp] is used only through [test]. *)
Record RegExp := { test : string -> bool }.

(** Error and warning descriptors built by [utils/error]; the constructor
    keeps the arguments the loader passes. *)
Inductive Err :=
| errBadLoader (id : string)
| errCannotAssignModuleToChunk (moduleId assignToAlias currentAlias : string)
| errEntryCannotBeExternal (unresolvedId : string)
| errExternalSyntheticExports (source importer : string)
| errInternalIdCannotBeExternal (source importer : string)
| errInvalidOption (option explanation : string)
| errNamespaceConflict (name reexportingModule additionalExportAllModule : string)
| errUnresolvedEntry (unresolvedId : string)
| errUnresolvedImport (source importer : string)
| errUnresolvedImportTreatedAsExternal (source importer : string)
| errCouldNotLoad (message : string)
| errRejected (message : string)
| errTypeError (message : string).

(** The stable code string of each descriptor. *)
Definition code (e : Err) : string :=
  match e with
  | errBadLoader _ => "BAD_LOADER"
  | errCannotAssignModuleToChunk _ _ _ => "CANNOT_ASSIGN_MODULE_TO_CHUNK"
  | errEntryCannotBeExternal _ => "ENTRY_CANNOT_BE_EXTERNAL"
  | errExternalSyntheticExports _ _ => "EXTERNAL_SYNTHETIC_EXPORTS"
  | errInternalIdCannotBeExternal _ _ => "INTERNAL_ID_CANNOT_BE_EXTERNAL"
  | errInvalidOption _ _ => "INVALID_OPTION"
  | errNamespaceConflict _ _ _ => "NAMESPACE_CONFLICT"
  | errUnresolvedEntry _ => "UNRESOLVED_ENTRY"
  | errUnresolvedImport _ _ => "UNRESOLVED_IMPORT"
  | errUnresolvedImportTreatedAsExternal _ _ => "UNRESOLVED_IMPORT_TREATED_AS_EXTERNAL"
  | errCouldNotLoad _ => "LOAD_ERROR"
  | errRejected _ => "PLUGIN_ERROR"
  | errTypeError _ => "TypeError"
  end.

(** Observable effects of synchronous code: warnings routed to the graph,
    files re-emitted through the plugin driver, and whatever a user callable
    does when it runs (at least: it records that it was invoked). *)
Inductive Event :=
| EvWarn (w : Err)
| EvEmitFile (file : string)
| EvInvoked (callable : string) (id : string).

(** A computation that may invoke user callables returns its value with the
    events those invocations produced, in order. *)
Definition Traced (A : Type) : Type := A * list Event.

Definition tret {A} (a : A) : Traced A := (a, []).
Definition tbind {A B} (m : Traced A) (f : A -> Traced B) : Traced B :=
  let '(a, l1) := m in let '(b, l2) := f a in (b, l1 ++ l2).

(** ** The id-matcher *)

Section IdMatcher.
(** [T] is the tuple of extra arguments of the predicate. *)
Context {T : Type}.

(** [boolean | (string | RegExp)[] | ((id, ...args) => boolean | null | undefined)] *)
Inductive IdOption :=
| OptBool (b : bool)
| OptList (values : list (string + RegExp))
| OptFn (option : string -> T -> Traced UserBool).

(** The loop filling [ids] and [matchers]. *)
Fixpoint partitionValues (values : list (string + RegExp))
  : list string * list RegExp :=
  match values with
  | [] => ([], [])
  | value :: rest =>
      let '(ids, matchers) := partitionValues rest in
      match value with
      | inr re => (ids, re :: matchers)
      | inl s => (s :: ids, matchers)
      end
  end.

Definition getIdMatcher (option : IdOption) : string -> T -> Traced bool :=
  match option with
  | OptBool true => fun _ _ => tret true
  | OptFn f =>
      fun id args =>
        if negb (startsWithNul id)
        then tbind (f id args) (fun v => tret (truthy v))
        else tret false
  | OptList values =>
      let '(ids, matchers) := partitionValues values in
      fun id _ =>
        tret (bool_decide (id ∈ ids) || existsb (fun matcher => test matcher id) matchers)
  | OptBool false => fun _ _ => tret false
  end.
End IdMatcher.
Arguments IdOption : clear implicits.

(** ** The side-effect policy *)

(** [boolean | 'no-external' | string[] | ((id, external) => boolean | null | undefined)],
    or any other run-time value, of which only the truthiness matters. *)
Inductive ModuleSideEffectsOption :=
| MSEBool (b : bool)
| MSENoExternal
| MSEFn (f : string -> bool -> Traced UserBool)
| MSEList (ids : list string)
| MSEOther (isTruthy : bool).

(** [PureModulesOption]: the callable form takes the id only. *)
Definition PureModulesOption := IdOption unit.

(** The policy is built once; building it may warn about an invalid option. *)
Definition getHasModuleSideEffects
    (moduleSideEffectsOption : ModuleSideEffectsOption)
    (pureExternalModules : PureModulesOption)
  : Traced (string -> bool -> Traced bool) :=
  match moduleSideEffectsOption with
  | MSEBool b => tret (fun _ _ => tret b)
  | MSENoExternal => tret (fun _id external => tret (negb external))
  | MSEFn f =>
      tret (fun id external =>
              if negb (startsWithNul id)
              then tbind (f id external) (fun v => tret (notFalse v))
              else tret true)
  | MSEList l => tret (fun id _ => tret (bool_decide (id ∈ l)))
  | MSEOther isTruthy =>
      let isPureExternalModule := getIdMatcher pureExternalModules in
      let policy := fun id (external : bool) =>
        if external
        then tbind (isPureExternalModule id tt) (fun pure => tret (negb pure))
        else tret true in
      (policy,
       if isTruthy
       then [EvWarn (errInvalidOption "treeshake.moduleSideEffects"
              "please use one of false, 'no-external', a function or an array")]
       else [])
  end.

(** ** Data model *)

(** The canonical record of a resolved reference. *)
Record ResolvedId := {
  rid_external : bool;
  rid_id : string;
  rid_moduleSideEffects : bool;
  rid_syntheticNamedExports : bool
}.

(** The object form of a raw resolution: [id] with optional [external],
    [moduleSideEffects] and [syntheticNamedExports]; optional booleans that
    are absent or not boolean are [None]. *)
Record PartialResolvedId := {
  pr_id : string;
  pr_external : bool;
  pr_moduleSideEffects : option bool;
  pr_syntheticNamedExports : option bool
}.

(** [ResolveIdResult]: [string | false | null | undefined | PartialResolvedId]. *)
Inductive ResolveIdResult :=
| RString (s : string)
| RFalse
| RNullish
| RObject (o : PartialResolvedId).

(** The specifier of a dynamic import: a string literal or an AST node. *)
Inductive Specifier :=
| SpecString (s : string)
| SpecNode (node : nat).

(** The [resolution] slot of a dynamic import: unset, a string, or a module
    of the registry (held by reference). *)
Inductive DynamicResolution :=
| DynUnset
| DynString (s : string)
| DynModule (ref : nat).

Record DynamicImport := {
  di_argument : Specifier;
  di_resolution : DynamicResolution
}.

(** What [Module.setSource] takes from a transformed or cached source: the
    parsed dependencies and exports of the body. *)
Record ModuleInfo := {
  info_sources : list string;
  info_dynamicImports : list Specifier;
  info_exportAllSources : list string;
  info_exports : list string
}.

(** [SourceDescription]: what the load hook may return instead of a string. *)
Record SourceDescription := {
  sd_code : string;
  sd_moduleSideEffects : option bool;
  sd_syntheticNamedExports : option bool
}.

(** An entry of [graph.cachedModules]. *)
Record CachedModule := {
  cm_customTransformCache : bool;
  cm_originalCode : string;
  cm_transformFiles : option (list string);
  cm_info : ModuleInfo
}.

(** The fields of an internal module the loader reads or writes.  Sets are
    lists without duplicates in insertion order, objects used as maps are
    association lists in key order where the loader enumerates them. *)
Record Module := {
  m_id : string;
  m_moduleSideEffects : bool;
  m_syntheticNamedExports : bool;
  m_isEntryPoint : bool;
  m_isUserDefinedEntryPoint : bool;
  m_manualChunkAlias : option string;
  m_chunkName : option string;
  m_chunkFileNames : list string;
  m_userChunkNames : list string;
  m_sources : list string;
  m_dynamicImports : list DynamicImport;
  m_exportAllSources : list string;
  m_exports : list string;
  m_exportsAll : list (string * string);
  m_resolvedIds : gmap string ResolvedId;
  m_importers : list string;
  m_dynamicImporters : list string
}.

Record ExternalModule := {
  x_id : string;
  x_moduleSideEffects : bool;
  x_importers : list string;
  x_dynamicImporters : list string
}.

(** Module objects live in a heap and are shared by reference: the registry,
    the entry list and the manual chunks all hold references. *)
Inductive Obj :=
| OModule (m : Module)
| OExternal (x : ExternalModule).

Definition objId (o : Obj) : string :=
  match o with OModule m => m_id m | OExternal x => x_id x end.

Definition isModule (o : Obj) : bool :=
  match o with OModule _ => true | OExternal _ => false end.

(** A promise is named by the activation that settles it. *)
Definition Promise := nat.

(** [{ index: number; module: Module }] *)
Record IndexedEntry := {
  ie_index : nat;
  ie_module : nat
}.

(** The loader, together with the two fields of the graph it writes
    ([watchFiles] and the warnings, kept in [trace]). *)
Record Loader := {
  heap : list Obj;
  modulesById : list (string * nat);
  indexedEntryModules : list IndexedEntry;
  latestLoadModulesPromise : Promise;
  manualChunkModules : gmap string (list nat);
  nextEntryModuleIndex : nat;
  watchFiles : gset string;
  trace : list Event
}.

(** *** Field updates *)

Definition set_heap (f : list Obj -> list Obj) (st : Loader) : Loader :=
  {| heap := f (heap st); modulesById := modulesById st;
     indexedEntryModules := indexedEntryModules st;
     latestLoadModulesPromise := latestLoadModulesPromise st;
     manualChunkModules := manualChunkModules st;
     nextEntryModuleIndex := nextEntryModuleIndex st;
     watchFiles := watchFiles st; trace := trace st |}.

Definition set_modulesById (f : list (string * nat) -> list (string * nat)) (st : Loader) : Loader :=
  {| heap := heap st; modulesById := f (modulesById st);
     indexedEntryModules := indexedEntryModules st;
     latestLoadModulesPromise := latestLoadModulesPromise st;
     manualChunkModules := manualChunkModules st;
     nextEntryModuleIndex := nextEntryModuleIndex st;
     watchFiles := watchFiles st; trace := trace st |}.

Definition set_indexedEntryModules (f : list IndexedEntry -> list IndexedEntry) (st : Loader) : Loader :=
  {| heap := heap st; modulesById := modulesById st;
     indexedEntryModules := f (indexedEntryModules st);
     latestLoadModulesPromise := latestLoadModulesPromise st;
     manualChunkModules := manualChunkModules st;
     nextEntryModuleIndex := nextEntryModuleIndex st;
     watchFiles := watchFiles st; trace := trace st |}.

Definition set_latestLoadModulesPromise (p : Promise) (st : Loader) : Loader :=
  {| heap := heap st; modulesById := modulesById st;
     indexedEntryModules := indexedEntryModules st;
     latestLoadModulesPromise := p;
     manualChunkModules := manualChunkModules st;
     nextEntryModuleIndex := nextEntryModuleIndex st;
     watchFiles := watchFiles st; trace := trace st |}.

Definition set_manualChunkModules (f : gmap string (list nat) -> gmap string (list nat)) (st : Loader) : Loader :=
  {| heap := heap st; modulesById := modulesById st;
     indexedEntryModules := indexedEntryModules st;
     latestLoadModulesPromise := latestLoadModulesPromise st;
     manualChunkModules := f (manualChunkModules st);
     nextEntryModuleIndex := nextEntryModuleIndex st;
     watchFiles := watchFiles st; trace := trace st |}.

Definition set_nextEntryModuleIndex (n : nat) (st : Loader) : Loader :=
  {| heap := heap st; modulesById := modulesById st;
     indexedEntryModules := indexedEntryModules st;
     latestLoadModulesPromise := latestLoadModulesPromise st;
     manualChunkModules := manualChunkModules st;
     nextEntryModuleIndex := n;
     watchFiles := watchFiles st; trace := trace st |}.

Definition set_watchFiles (f : gset string -> gset string) (st : Loader) : Loader :=
  {| heap := heap st; modulesById := modulesById st;
     indexedEntryModules := indexedEntryModules st;
     latestLoadModulesPromise := latestLoadModulesPromise st;
     manualChunkModules := manualChunkModules st;
     nextEntryModuleIndex := nextEntryModuleIndex st;
     watchFiles := f (watchFiles st); trace := trace st |}.

Definition add_trace (evs : list Event) (st : Loader) : Loader :=
  {| heap := heap st; modulesById := modulesById st;
     indexedEntryModules := indexedEntryModules st;
     latestLoadModulesPromise := latestLoadModulesPromise st;
     manualChunkModules := manualChunkModules st;
     nextEntryModuleIndex := nextEntryModuleIndex st;
     watchFiles := watchFiles st; trace := trace st ++ evs |}.

(** Assignments to the fields of a module. *)
Inductive ModuleWrite :=
| W_moduleSideEffects (b : bool)
| W_syntheticNamedExports (b : bool)
| W_isEntryPoint (b : bool)
| W_isUserDefinedEntryPoint (b : bool)
| W_manualChunkAlias (a : option string)
| W_chunkName (n : option string)
| W_chunkFileNames (l : list string)
| W_userChunkNames (l : list string)
| W_source (info : ModuleInfo)
| W_dynamicImports (l : list DynamicImport)
| W_exportsAll (l : list (string * string))
| W_resolvedIds (r : gmap string ResolvedId)
| W_importers (l : list string)
| W_dynamicImporters (l : list string).

(** Set semantics of [add]: insertion order, no duplicates. *)
Definition setAdd (x : string) (l : list string) : list string :=
  if bool_decide (x ∈ l) then l else l ++ [x].

Definition setOf (l : list string) : list string :=
  foldl (fun acc x => setAdd x acc) [] l.

(** Modelled from the spec: [Module.setSource] (in [Module.ts]) copies the
    parsed state of the body into the module; [sources] and
    [exportAllSources] are sets, each dynamic import starts with its
    [resolution] slot unset. *)
Definition setSource (info : ModuleInfo) (m : Module) : Module :=
  {| m_id := m_id m; m_moduleSideEffects := m_moduleSideEffects m;
     m_syntheticNamedExports := m_syntheticNamedExports m;
     m_isEntryPoint := m_isEntryPoint m;
     m_isUserDefinedEntryPoint := m_isUserDefinedEntryPoint m;
     m_manualChunkAlias := m_manualChunkAlias m; m_chunkName := m_chunkName m;
     m_chunkFileNames := m_chunkFileNames m; m_userChunkNames := m_userChunkNames m;
     m_sources := setOf (info_sources info);
     m_dynamicImports :=
       map (fun a => {| di_argument := a; di_resolution := DynUnset |})
           (info_dynamicImports info);
     m_exportAllSources := setOf (info_exportAllSources info);
     m_exports := setOf (info_exports info);
     m_exportsAll := m_exportsAll m; m_resolvedIds := m_resolvedIds m;
     m_importers := m_importers m; m_dynamicImporters := m_dynamicImporters m |}.

Definition writeModule (w : ModuleWrite) (m : Module) : Module :=
  let upd msf sne iep iud mca cn cfn ucn di ea ri imp dimp :=
    {| m_id := m_id m; m_moduleSideEffects := msf; m_syntheticNamedExports := sne;
       m_isEntryPoint := iep; m_isUserDefinedEntryPoint := iud;
       m_manualChunkAlias := mca; m_chunkName := cn; m_chunkFileNames := cfn;
       m_userChunkNames := ucn; m_sources := m_sources m; m_dynamicImports := di;
       m_exportAllSources := m_exportAllSources m; m_exports := m_exports m;
       m_exportsAll := ea; m_resolvedIds := ri; m_importers := imp;
       m_dynamicImporters := dimp |} in
  let k f := f (m_moduleSideEffects m) (m_syntheticNamedExports m) (m_isEntryPoint m)
               (m_isUserDefinedEntryPoint m) (m_manualChunkAlias m) (m_chunkName m)
               (m_chunkFileNames m) (m_userChunkNames m) (m_dynamicImports m)
               (m_exportsAll m) (m_resolvedIds m) (m_importers m) (m_dynamicImporters m) in
  match w with
  | W_moduleSideEffects b => k (fun _ b2 b3 b4 a c f u d e r i j => upd b b2 b3 b4 a c f u d e r i j)
  | W_syntheticNamedExports b => k (fun b1 _ b3 b4 a c f u d e r i j => upd b1 b b3 b4 a c f u d e r i j)
  | W_isEntryPoint b => k (fun b1 b2 _ b4 a c f u d e r i j => upd b1 b2 b b4 a c f u d e r i j)
  | W_isUserDefinedEntryPoint b => k (fun b1 b2 b3 _ a c f u d e r i j => upd b1 b2 b3 b a c f u d e r i j)
  | W_manualChunkAlias x => k (fun b1 b2 b3 b4 _ c f u d e r i j => upd b1 b2 b3 b4 x c f u d e r i j)
  | W_chunkName x => k (fun b1 b2 b3 b4 a _ f u d e r i j => upd b1 b2 b3 b4 a x f u d e r i j)
  | W_chunkFileNames x => k (fun b1 b2 b3 b4 a c _ u d e r i j => upd b1 b2 b3 b4 a c x u d e r i j)
  | W_userChunkNames x => k (fun b1 b2 b3 b4 a c f _ d e r i j => upd b1 b2 b3 b4 a c f x d e r i j)
  | W_source info => setSource info m
  | W_dynamicImports x => k (fun b1 b2 b3 b4 a c f u _ e r i j => upd b1 b2 b3 b4 a c f u x e r i j)
  | W_exportsAll x => k (fun b1 b2 b3 b4 a c f u d _ r i j => upd b1 b2 b3 b4 a c f u d x r i j)
  | W_resolvedIds x => k (fun b1 b2 b3 b4 a c f u d e _ i j => upd b1 b2 b3 b4 a c f u d e x i j)
  | W_importers x => k (fun b1 b2 b3 b4 a c f u d e r _ j => upd b1 b2 b3 b4 a c f u d e r x j)
  | W_dynamicImporters x => k (fun b1 b2 b3 b4 a c f u d e r i _ => upd b1 b2 b3 b4 a c f u d e r i x)
  end.

(** Modelled from the spec: the constructor of [Module] (in [Module.ts])
    stores its four arguments; every other field starts empty, unset or
    false. *)
Definition newModule (id : string) (moduleSideEffects syntheticNamedExports isEntry : bool) : Module :=
  {| m_id := id; m_moduleSideEffects := moduleSideEffects;
     m_syntheticNamedExports := syntheticNamedExports; m_isEntryPoint := isEntry;
     m_isUserDefinedEntryPoint := false; m_manualChunkAlias := None;
     m_chunkName := None; m_chunkFileNames := []; m_userChunkNames := [];
     m_sources := []; m_dynamicImports := []; m_exportAllSources := [];
     m_exports := []; m_exportsAll := []; m_resolvedIds := ∅;
     m_importers := []; m_dynamicImporters := [] |}.

(** Modelled from the spec: the constructor of [ExternalModule] (in
    [ExternalModule.ts]) stores the id and the side-effect flag. *)
Definition newExternalModule (id : string) (moduleSideEffects : bool) : ExternalModule :=
  {| x_id := id; x_moduleSideEffects := moduleSideEffects;
     x_importers := []; x_dynamicImporters := [] |}.

(** *** The registry: a [Map] in insertion order *)

Fixpoint mapGet {V} (k : string) (m : list (string * V)) : option V :=
  match m with
  | [] => None
  | (k', v) :: rest => if bool_decide (k' = k) then Some v else mapGet k rest
  end.

(** [set] keeps the position of an existing key. *)
Fixpoint mapSet {V} (k : string) (v : V) (m : list (string * V)) : list (string * V) :=
  match m with
  | [] => [(k, v)]
  | (k', v') :: rest =>
      if bool_decide (k' = k) then (k, v) :: rest else (k', v') :: mapSet k v rest
  end.

Definition mapHas {V} (k : string) (m : list (string * V)) : bool :=
  match mapGet k m with Some _ => true | None => false end.

(** [modulesById.get(id)] when it is an instance of [Module]. *)
Definition existingModule (st : Loader) (id : string) : option (nat * Module) :=
  r ← mapGet id (modulesById st);
  match heap st !! r with
  | Some (OModule m) => Some (r, m)
  | _ => None
  end.

(** ** Asynchronous programs *)

(** [UnresolvedModule] *)
Record UnresolvedModule := {
  fileName : option string;
  id : string;
  importer : option string;
  name : option string
}.

(** [GetManualChunk]: the user callable of [assignManualChunks].  The api
    object it receives is a view of the loader, so it is given the loader. *)
Definition GetManualChunk := string -> Loader -> Traced (option string).

(** What a promise resolves to. *)
#[warnings="-register-all"]
Inductive Value :=
| VUndefined
| VRef (ref : nat)
| VResolved (resolved : option ResolvedId)
| VList (vs : list Value)
| VEntryResult (entryModules : list nat)
               (manualChunkModulesByAlias : gmap string (list nat))
               (newEntryModules : list nat).

(** The suspending operations of the collaborators. *)
Inductive ExtCall :=
| callResolveId (source : string) (importer : option string)
                (preserveSymlinks : bool) (skip : option nat)
| callLoadHook (id : string)
| callReadFile (id : string)
| callTransform (sourceDescription : SourceDescription) (module : nat) (id : string)
| callResolveDynamicImportHook (specifier : Specifier) (importer : string).

(** What the load hook resolves to: a string, a source description, nothing,
    or a value that is neither. *)
Inductive LoadResult :=
| LString (code : string)
| LObject (sd : SourceDescription)
| LNullish
| LOther.

Inductive ExtReply :=
| replyResolveId (r : ResolveIdResult)
| replyLoad (r : LoadResult)
| replyFile (source : string)
| replyTransform (info : ModuleInfo)
| replyReject (message : string).

(** A settled reply has the shape its call expects; any call may reject. *)
Definition replyFits (c : ExtCall) (r : ExtReply) : bool :=
  match c, r with
  | _, replyReject _ => true
  | callResolveId _ _ _ _, replyResolveId _ => true
  | callResolveDynamicImportHook _ _, replyResolveId _ => true
  | callLoadHook _, replyLoad _ => true
  | callReadFile _, replyFile _ => true
  | callTransform _ _ _, replyTransform _ => true
  | _, _ => false
  end.

(** The activations that run concurrently: each call of an async function
    whose promise is kept rather than awaited at once, each [Promise.all] and
    each [then] callback. *)
Inductive Call :=
| CAll (promises : list Promise)
| CLoadEntryModule (unresolvedId : string) (isEntry : bool) (importer : option string)
| CStaticDependency (module : nat) (source : string)
| CDynamicDependency (module : nat) (index : nat)
| CThenEntryModules (loaded : Promise) (firstEntryModuleIndex : nat)
                    (unresolvedEntryModules : list UnresolvedModule) (isUserDefined : bool)
| CThenManualChunks (loaded : Promise) (unresolvedManualChunks : list (string * string))
| CGetCombinedPromise
| CAddEntryModules (unresolvedEntryModules : list UnresolvedModule) (isUserDefined : bool)
| CAddManualChunks (manualChunks : list (string * list string))
| CAssignManualChunks (getManualChunk : GetManualChunk)
| CResolveId (source : string) (importer : option string) (skip : option nat).

(** The methods the graph and the plugin context call. *)
Definition isPublic (c : Call) : bool :=
  match c with
  | CAddEntryModules _ _ | CAddManualChunks _ | CAssignManualChunks _
  | CResolveId _ _ _ => true
  | _ => false
  end.

(** Programs: synchronous access to the loader ([Get], [Put]), the
    suspension points ([Yield] for an [await] of a value that is already
    there, [AwaitExt] for a collaborator, [AwaitAll] for promises of the
    loader's own activations), [Spawn] for starting an activation, whose
    synchronous prefix runs at once, and [Throw] for [error(...)]. *)
Inductive Async (A : Type) : Type :=
| Ret (a : A)
| Throw (e : Err)
| Get (k : Loader -> Async A)
| Put (s : Loader) (k : Async A)
| Yield (k : Async A)
| AwaitExt (c : ExtCall) (k : ExtReply -> Async A)
| Spawn (c : Call) (k : Promise -> Async A)
| AwaitAll (ps : list Promise) (k : list Value -> Async A).
Arguments Ret {A} a.
Arguments Throw {A} e.
Arguments Get {A} k.
Arguments Put {A} s k.
Arguments Yield {A} k.
Arguments AwaitExt {A} c k.
Arguments Spawn {A} c k.
Arguments AwaitAll {A} ps k.

Fixpoint bind {A B} (m : Async A) (f : A -> Async B) : Async B :=
  match m with
  | Ret a => f a
  | Throw e => Throw e
  | Get k => Get (fun st => bind (k st) f)
  | Put s k => Put s (bind k f)
  | Yield k => Yield (bind k f)
  | AwaitExt c k => AwaitExt c (fun r => bind (k r) f)
  | Spawn c k => Spawn c (fun p => bind (k p) f)
  | AwaitAll ps k => AwaitAll ps (fun vs => bind (k vs) f)
  end.

Notation "x <- m ;; k" := (bind m (fun x => k))
  (at level 100, m at next level, right associativity).
Notation "m ;;; k" := (bind m (fun _ => k))
  (at level 100, right associativity).

Definition get : Async Loader := Get Ret.
Definition modify (f : Loader -> Loader) : Async unit :=
  Get (fun st => Put (f st) (Ret tt)).
Definition error {A} (e : Err) : Async A := Throw e.
Definition warn (w : Err) : Async unit := modify (add_trace [EvWarn w]).
Definition awaitExt (c : ExtCall) : Async ExtReply := AwaitExt c Ret.
Definition spawn (c : Call) : Async Promise := Spawn c Ret.
Definition awaitAll (ps : list Promise) : Async (list Value) := AwaitAll ps Ret.

(** [await m] where [m] is a call of one of the loader's async functions:
    the callee runs, and the caller resumes in a later turn. *)
Definition await_ {A} (m : Async A) : Async A :=
  a <- m ;; Yield (Ret a).

(** [await p] for one promise. *)
Definition awaitPromise (p : Promise) : Async Value :=
  vs <- awaitAll [p] ;;
  match vs with
  | [v] => Ret v
  | _ => Ret VUndefined
  end.

(** Appending the events of a call that made none changes nothing. *)
Definition emit (evs : list Event) (st : Loader) : Loader :=
  match evs with
  | [] => st
  | _ => add_trace evs st
  end.

(** Running code that may invoke user callables records what they did. *)
Definition traced {A} (m : Traced A) : Async A :=
  modify (emit (snd m)) ;;; Ret (fst m).

Fixpoint spawnAll (cs : list Call) : Async (list Promise) :=
  match cs with
  | [] => Ret []
  | c :: rest => p <- spawn c ;; ps <- spawnAll rest ;; Ret (p :: ps)
  end.

(** *** Objects of the heap *)

Definition alloc (o : Obj) : Async nat :=
  st <- get ;;
  modify (set_heap (fun h => h ++ [o])) ;;;
  Ret (length (heap st)).

Definition writeObj (w : ModuleWrite) (o : Obj) : Obj :=
  match o with
  | OModule m => OModule (writeModule w m)
  | OExternal x => OExternal x
  end.

(** [module.field = value] *)
Definition writeField (module : nat) (w : ModuleWrite) : Async unit :=
  modify (set_heap (alter (writeObj w) module)).

(** Reading a module through a reference the code holds as a [Module]. *)
Definition readModule (module : nat) : Async Module :=
  st <- get ;;
  match heap st !! module with
  | Some (OModule m) => Ret m
  | _ => error (errTypeError "not a module")
  end.

Definition truthyString (s : option string) : bool :=
  match s with
  | Some (String _ _) => true
  | _ => false
  end.

(** The default [Array.prototype.sort()] of a list of ids: ascending string
    order, by a stable merge sort. *)
Definition sortStrings (l : list string) : list string :=
  merge_sort (fun a b => Is_true (String.leb a b)) l.

(** [resolution.importers.push(id); resolution.importers.sort()] *)
Definition pushImporter (id : string) (o : Obj) : Obj :=
  match o with
  | OModule m => OModule (writeModule (W_importers (sortStrings (m_importers m ++ [id]))) m)
  | OExternal x =>
      OExternal {| x_id := x_id x; x_moduleSideEffects := x_moduleSideEffects x;
                   x_importers := sortStrings (x_importers x ++ [id]);
                   x_dynamicImporters := x_dynamicImporters x |}
  end.

(** [resolution.dynamicImporters.push(id); resolution.dynamicImporters.sort()] *)
Definition pushDynamicImporter (id : string) (o : Obj) : Obj :=
  match o with
  | OModule m =>
      OModule (writeModule (W_dynamicImporters (sortStrings (m_dynamicImporters m ++ [id]))) m)
  | OExternal x =>
      OExternal {| x_id := x_id x; x_moduleSideEffects := x_moduleSideEffects x;
                   x_importers := x_importers x;
                   x_dynamicImporters := sortStrings (x_dynamicImporters x ++ [id]) |}
  end.

(** ** The loader *)

(** The collaborators and options the loader is built with: the path
    helpers of [utils/path] and [utils/relativeId], the three options of the
    constructor, [preserveSymlinks] and the cache of the graph. *)
Record Host := {
  isRelative : string -> bool;
  resolve : list string -> string;
  relativeId : string -> string;
  external : IdOption (option string * bool);
  moduleSideEffects : ModuleSideEffectsOption;
  pureExternalModules : PureModulesOption;
  preserveSymlinks : bool;
  cachedModules : gmap string CachedModule
}.

(** [ResolvedId | string | null], the result of [resolveDynamicImport]. *)
Inductive DynamicResolved :=
| DRNull
| DRString (s : string)
| DRResolved (resolvedId : ResolvedId).

Definition expectResolveIdResult (reply : ExtReply) : Async ResolveIdResult :=
  match reply with
  | replyResolveId r => Ret r
  | replyReject message => error (errRejected message)
  | _ => error (errTypeError "unexpected reply")
  end.

Definition refsOf (v : Value) : list nat :=
  match v with
  | VList vs => omap (fun v => match v with VRef r => Some r | _ => None end) vs
  | _ => []
  end.

(** The comparator passed to [indexedEntryModules.sort]. *)
Definition compareIndexedEntries (a b : IndexedEntry) : Z :=
  if bool_decide (ie_index b < ie_index a) then 1%Z else (-1)%Z.

(** [Array.prototype.sort(comparator)]: a stable merge sort that places [a]
    before [b] when the comparator is negative. *)
Definition sortByComparator {A} (comparator : A -> A -> Z) (l : list A) : list A :=
  merge_sort (fun a b => Is_true (bool_decide (comparator a b < 0)%Z)) l.

Section ModuleLoader.
Context (host : Host).

Definition normalizeRelativeExternalId (source : string) (importer : option string) : string :=
  if isRelative host source
  then if truthyString importer
       then resolve host [default "" importer; ".."; source]
       else resolve host [source]
  else source.

(** [this.isExternal] and [this.hasModuleSideEffects], set by the
    constructor. *)
Definition isExternal : string -> option string * bool -> Traced bool :=
  getIdMatcher (external host).

Definition hasModuleSideEffects : string -> bool -> Traced bool :=
  fst (getHasModuleSideEffects (moduleSideEffects host) (pureExternalModules host)).

(** The loader as the constructor leaves it, over an empty registry;
    promise [0] is the resolved promise [latestLoadModulesPromise] starts
    with. *)
Definition newModuleLoader : Loader :=
  {| heap := []; modulesById := []; indexedEntryModules := [];
     latestLoadModulesPromise := 0; manualChunkModules := ∅;
     nextEntryModuleIndex := 0; watchFiles := ∅;
     trace := snd (getHasModuleSideEffects (moduleSideEffects host)
                                           (pureExternalModules host)) |}.

Definition handleResolveId (resolvedId : option ResolvedId) (source importer : string)
  : Async ResolvedId :=
  match resolvedId with
  | None =>
      if isRelative host source
      then error (errUnresolvedImport source importer)
      else
        warn (errUnresolvedImportTreatedAsExternal source importer) ;;;
        sideEffects <- traced (hasModuleSideEffects source true) ;;
        Ret {| rid_external := true; rid_id := source;
               rid_moduleSideEffects := sideEffects;
               rid_syntheticNamedExports := false |}
  | Some resolvedId =>
      (if rid_external resolvedId && rid_syntheticNamedExports resolvedId
       then warn (errExternalSyntheticExports source importer)
       else Ret tt) ;;;
      Ret resolvedId
  end.

Definition normalizeResolveIdResult (resolveIdResult : ResolveIdResult)
    (importer : option string) (source : string) : Async (option ResolvedId) :=
  let result (external : bool) (id : string) (moduleSideEffects : option bool)
             (syntheticNamedExports : bool) : Async (option ResolvedId) :=
    sideEffects <- match moduleSideEffects with
                   | Some b => Ret b
                   | None => traced (hasModuleSideEffects id external)
                   end ;;
    Ret (Some {| rid_external := external; rid_id := id;
                 rid_moduleSideEffects := sideEffects;
                 rid_syntheticNamedExports := syntheticNamedExports |}) in
  let falsy : Async (option ResolvedId) :=
    let id := normalizeRelativeExternalId source importer in
    match resolveIdResult with
    | RFalse => result true id None false
    | _ =>
        matches <- traced (isExternal id (importer, true)) ;;
        if negb matches then Ret None else result true id None false
    end in
  match resolveIdResult with
  | RObject o =>
      result (pr_external o) (pr_id o) (pr_moduleSideEffects o)
             (default false (pr_syntheticNamedExports o))
  | RString (String _ _ as resolved) =>
      external <- traced (isExternal resolved (importer, true)) ;;
      let id := if external then normalizeRelativeExternalId resolved importer
                else resolved in
      result external id None false
  | RString EmptyString | RFalse | RNullish => falsy
  end.

(** The method [resolveId]; the function of [utils/resolveId] it awaits is
    the collaborator [callResolveId]. *)
Definition resolveId (source : string) (importer : option string) (skip : option nat)
  : Async (option ResolvedId) :=
  matches <- traced (isExternal source (importer, false)) ;;
  resolveIdResult <-
    (if matches then Ret RFalse
     else reply <- awaitExt (callResolveId source importer (preserveSymlinks host) skip) ;;
          expectResolveIdResult reply) ;;
  normalizeResolveIdResult resolveIdResult importer source.

Definition emitFiles (files : list string) : Async unit :=
  modify (emit (map EvEmitFile files)).

Definition addModuleSource (id : string) (importer : option string) (module : nat)
  : Async unit :=
  let rethrow {A} (message : string) : Async A :=
    error (errCouldNotLoad
             ("Could not load " +:+ id +:+
              (if truthyString importer
               then " (imported by " +:+ relativeId host (default "" importer) +:+ ")"
               else "") +:+
              ": " +:+ message)) in
  loaded <- awaitExt (callLoadHook id) ;;
  source <- match loaded with
            | replyLoad LNullish =>
                file <- awaitExt (callReadFile id) ;;
                match file with
                | replyFile content => Ret (LString content)
                | replyReject message => rethrow message
                | _ => error (errTypeError "unexpected reply")
                end
            | replyLoad other => Ret other
            | replyReject message => rethrow message
            | _ => error (errTypeError "unexpected reply")
            end ;;
  sourceDescription <- match source with
                       | LString code =>
                           Ret {| sd_code := code; sd_moduleSideEffects := None;
                                  sd_syntheticNamedExports := None |}
                       | LObject sd => Ret sd
                       | _ => error (errBadLoader id)
                       end ;;
  let transformed : Async unit :=
    (match sd_moduleSideEffects sourceDescription with
     | Some b => writeField module (W_moduleSideEffects b)
     | None => Ret tt
     end) ;;;
    (match sd_syntheticNamedExports sourceDescription with
     | Some b => writeField module (W_syntheticNamedExports b)
     | None => Ret tt
     end) ;;;
    reply <- awaitExt (callTransform sourceDescription module id) ;;
    match reply with
    | replyTransform info => writeField module (W_source info)
    | replyReject message => error (errRejected message)
    | _ => error (errTypeError "unexpected reply")
    end in
  match cachedModules host !! id with
  | Some cachedModule =>
      if negb (cm_customTransformCache cachedModule)
         && bool_decide (cm_originalCode cachedModule = sd_code sourceDescription)
      then
        emitFiles (default [] (cm_transformFiles cachedModule)) ;;;
        writeField module (W_source (cm_info cachedModule))
      else transformed
  | None => transformed
  end.

Definition addModuleToManualChunk (alias : string) (module : nat) : Async unit :=
  m <- readModule module ;;
  match m_manualChunkAlias m with
  | Some current =>
      if bool_decide (current ≠ alias)
      then error (errCannotAssignModuleToChunk (m_id m) alias current)
      else Ret tt
  | None => Ret tt
  end ;;;
  writeField module (W_manualChunkAlias (Some alias)) ;;;
  st <- get ;;
  (match manualChunkModules st !! alias with
   | None => modify (set_manualChunkModules (insert alias []))
   | Some _ => Ret tt
   end) ;;;
  modify (set_manualChunkModules (alter (fun modules => modules ++ [module]) alias)).

(** [getCombinedPromise], the closure of [awaitLoadModulesPromise]. *)
Definition getCombinedPromise : Async Value :=
  st <- get ;;
  let startingPromise := latestLoadModulesPromise st in
  awaitPromise startingPromise ;;;
  st' <- get ;;
  if bool_decide (latestLoadModulesPromise st' ≠ startingPromise)
  then p <- spawn CGetCombinedPromise ;; awaitPromise p
  else Ret VUndefined.

Definition awaitLoadModulesPromise (loadNewModulesPromise : Promise) : Async Value :=
  st <- get ;;
  combined <- spawn (CAll [loadNewModulesPromise; latestLoadModulesPromise st]) ;;
  modify (set_latestLoadModulesPromise combined) ;;;
  p <- spawn CGetCombinedPromise ;;
  awaitPromise p ;;;
  awaitPromise loadNewModulesPromise.

Definition fetchAllDependencies (module : nat) : Async (list Value) :=
  m <- readModule module ;;
  static <- spawnAll (map (CStaticDependency module) (m_sources m)) ;;
  dynamic <- spawnAll (imap (fun index _ => CDynamicDependency module index)
                            (m_dynamicImports m)) ;;
  awaitAll (static ++ dynamic).

(** The first loop after the dependencies are fetched. *)
Fixpoint linkExports (module : nat) (names : list string) : Async unit :=
  match names with
  | [] => Ret tt
  | name :: rest =>
      (if bool_decide (name ≠ "default")
       then m <- readModule module ;;
            writeField module (W_exportsAll (mapSet name (m_id m) (m_exportsAll m)))
       else Ret tt) ;;;
      linkExports module rest
  end.

(** The inner loop over the names of [exportAllModule.exportsAll]. *)
Fixpoint linkExportAllNames (module exportAllModule : nat) (names : list string)
  : Async unit :=
  match names with
  | [] => Ret tt
  | name :: rest =>
      m <- readModule module ;;
      dependency <- readModule exportAllModule ;;
      (if mapHas name (m_exportsAll m)
       then warn (errNamespaceConflict name (m_id m) (m_id dependency))
       else match mapGet name (m_exportsAll dependency) with
            | Some definer =>
                writeField module (W_exportsAll (mapSet name definer (m_exportsAll m)))
            | None => Ret tt
            end) ;;;
      linkExportAllNames module exportAllModule rest
  end.

(** The loop over [module.exportAllSources]. *)
Fixpoint linkExportAllSources (module : nat) (sources : list string) : Async unit :=
  match sources with
  | [] => Ret tt
  | source :: rest =>
      m <- readModule module ;;
      match m_resolvedIds m !! source with
      | None => error (errTypeError "resolvedIds[source] is undefined")
      | Some resolved =>
          st <- get ;;
          match mapGet (rid_id resolved) (modulesById st) with
          | None => error (errTypeError "exportAllModule is undefined")
          | Some exportAllModule =>
              match heap st !! exportAllModule with
              | Some (OExternal _) => Ret tt
              | Some (OModule dependency) =>
                  linkExportAllNames module exportAllModule
                                     (map fst (m_exportsAll dependency))
              | None => error (errTypeError "exportAllModule is undefined")
              end
          end
      end ;;;
      linkExportAllSources module rest
  end.

(** The two loops that end [fetchModule]. *)
Definition linkModule (module : nat) : Async unit :=
  m <- readModule module ;;
  linkExports module (m_exports m) ;;;
  linkExportAllSources module (m_exportAllSources m).

Definition fetchModule (id : string) (importer : option string)
    (moduleSideEffects syntheticNamedExports isEntry : bool) : Async nat :=
  st <- get ;;
  match existingModule st id with
  | Some (existing, m) =>
      writeField existing (W_isEntryPoint (m_isEntryPoint m || isEntry)) ;;;
      Ret existing
  | None =>
      module <- alloc (OModule (newModule id moduleSideEffects syntheticNamedExports isEntry)) ;;
      modify (set_modulesById (mapSet id module)) ;;;
      modify (set_watchFiles (union {[id]})) ;;;
      await_ (addModuleSource id importer module) ;;;
      fetchAllDependencies module ;;;
      linkModule module ;;;
      Ret module
  end.

Definition fetchResolvedDependency (source importer : string) (resolvedId : ResolvedId)
  : Async nat :=
  if rid_external resolvedId
  then
    st <- get ;;
    (if negb (mapHas (rid_id resolvedId) (modulesById st))
     then x <- alloc (OExternal (newExternalModule (rid_id resolvedId)
                                   (rid_moduleSideEffects resolvedId))) ;;
          modify (set_modulesById (mapSet (rid_id resolvedId) x))
     else Ret tt) ;;;
    st' <- get ;;
    match r ← mapGet (rid_id resolvedId) (modulesById st'); heap st' !! r ≫= (fun o => Some (r, o)) with
    | Some (externalModule, OExternal _) => Ret externalModule
    | _ => error (errInternalIdCannotBeExternal source importer)
    end
  else
    fetchModule (rid_id resolvedId) (Some importer) (rid_moduleSideEffects resolvedId)
                (rid_syntheticNamedExports resolvedId) false.

(** [module.resolvedIds[s] = module.resolvedIds[s] || handleResolveId(await
    resolveId(s, module.id), s, module.id)], the expression shared by the
    static and the dynamic path. *)
Definition resolveMemoized (module : nat) (specifier : string) : Async ResolvedId :=
  m <- readModule module ;;
  resolvedId <- match m_resolvedIds m !! specifier with
                | Some memo => Ret memo
                | None =>
                    resolved <- await_ (resolveId specifier (Some (m_id m)) None) ;;
                    handleResolveId resolved specifier (m_id m)
                end ;;
  m' <- readModule module ;;
  writeField module (W_resolvedIds (<[specifier := resolvedId]> (m_resolvedIds m'))) ;;;
  Ret resolvedId.

Definition resolveDynamicImport (module : nat) (specifier : Specifier) (importer : string)
  : Async DynamicResolved :=
  reply <- awaitExt (callResolveDynamicImportHook specifier importer) ;;
  resolution <- expectResolveIdResult reply ;;
  match specifier with
  | SpecNode _ =>
      match resolution with
      | RString s => Ret (DRString s)
      | RFalse | RNullish => Ret DRNull
      | RObject o =>
          Ret (DRResolved
                 {| rid_external := pr_external o; rid_id := pr_id o;
                    rid_moduleSideEffects := default true (pr_moduleSideEffects o);
                    rid_syntheticNamedExports :=
                      default false (pr_syntheticNamedExports o) |})
      end
  | SpecString specifier =>
      match resolution with
      | RNullish =>
          resolvedId <- resolveMemoized module specifier ;;
          Ret (DRResolved resolvedId)
      | _ =>
          normalized <- normalizeResolveIdResult resolution (Some importer) specifier ;;
          resolvedId <- handleResolveId normalized specifier importer ;;
          Ret (DRResolved resolvedId)
      end
  end.

(** The async arrow over [module.sources] in [fetchAllDependencies]. *)
Definition staticDependency (module : nat) (source : string) : Async Value :=
  m <- readModule module ;;
  resolvedId <- resolveMemoized module source ;;
  resolution <- await_ (fetchResolvedDependency source (m_id m) resolvedId) ;;
  modify (set_heap (alter (pushImporter (m_id m)) resolution)) ;;;
  Ret VUndefined.

Definition setResolution (module index : nat) (resolution : DynamicResolution)
  : Async unit :=
  m <- readModule module ;;
  writeField module
    (W_dynamicImports
       (alter (fun d => {| di_argument := di_argument d; di_resolution := resolution |})
              index (m_dynamicImports m))).

(** The async arrow over [module.dynamicImports] in [fetchAllDependencies]. *)
Definition dynamicDependency (module index : nat) : Async Value :=
  m <- readModule module ;;
  match m_dynamicImports m !! index with
  | None => Ret VUndefined
  | Some dynamicImport =>
      resolvedId <- await_ (resolveDynamicImport module (di_argument dynamicImport) (m_id m)) ;;
      match resolvedId with
      | DRNull => Ret VUndefined
      | DRString s => setResolution module index (DynString s) ;;; Ret VUndefined
      | DRResolved resolvedId =>
          resolution <- await_ (fetchResolvedDependency (relativeId host (rid_id resolvedId))
                                                       (m_id m) resolvedId) ;;
          setResolution module index (DynModule resolution) ;;;
          modify (set_heap (alter (pushDynamicImporter (m_id m)) resolution)) ;;;
          Ret VUndefined
      end
  end.

Definition loadEntryModule (unresolvedId : string) (isEntry : bool)
    (importer : option string) : Async nat :=
  reply <- awaitExt (callResolveId unresolvedId importer (preserveSymlinks host) None) ;;
  resolveIdResult <- expectResolveIdResult reply ;;
  match resolveIdResult with
  | RFalse => error (errEntryCannotBeExternal unresolvedId)
  | RObject o =>
      if pr_external o
      then error (errEntryCannotBeExternal unresolvedId)
      else fetchModule (pr_id o) None true false isEntry
  | RString id => fetchModule id None true false isEntry
  | RNullish => error (errUnresolvedEntry unresolvedId)
  end.

(** [indexedEntryModules.find(indexedModule => indexedModule.module.id === id)],
    as the position of the record found. *)
Definition findIndexedModule (st : Loader) (id : string) : option nat :=
  fst <$> list_find
    (fun indexedModule =>
       (objId <$> heap st !! ie_module indexedModule) = Some id)
    (indexedEntryModules st).

(** The loop of the [then] callback of [addEntryModules]. *)
Fixpoint indexEntryModules (moduleIndex : nat)
    (unresolvedEntryModules : list UnresolvedModule) (entryModules : list nat)
    (isUserDefined : bool) : Async unit :=
  match unresolvedEntryModules, entryModules with
  | unresolved :: unresolvedRest, entryModule :: entryRest =>
      m <- readModule entryModule ;;
      writeField entryModule
        (W_isUserDefinedEntryPoint (m_isUserDefinedEntryPoint m || isUserDefined)) ;;;
      (match fileName unresolved with
       | Some fileName =>
           writeField entryModule (W_chunkFileNames (setAdd fileName (m_chunkFileNames m)))
       | None =>
           match name unresolved with
           | Some name =>
               (match m_chunkName m with
                | None => writeField entryModule (W_chunkName (Some name))
                | Some _ => Ret tt
                end) ;;;
               (if isUserDefined
                then writeField entryModule
                       (W_userChunkNames (setAdd name (m_userChunkNames m)))
                else Ret tt)
           | None => Ret tt
           end
       end) ;;;
      st <- get ;;
      (match findIndexedModule st (m_id m) with
       | None =>
           modify (set_indexedEntryModules
                     (fun l => l ++ [{| ie_index := moduleIndex; ie_module := entryModule |}]))
       | Some position =>
           modify (set_indexedEntryModules
                     (alter (fun existingIndexedModule =>
                               {| ie_index := ie_index existingIndexedModule `min` moduleIndex;
                                  ie_module := ie_module existingIndexedModule |})
                            position))
       end) ;;;
      indexEntryModules (S moduleIndex) unresolvedRest entryRest isUserDefined
  | _, _ => Ret tt
  end.

(** The [then] callback of [addEntryModules], run once every entry of the
    batch is loaded. *)
Definition indexAndSortEntryModules (firstEntryModuleIndex : nat)
    (unresolvedEntryModules : list UnresolvedModule) (entryModules : list nat)
    (isUserDefined : bool) : Async unit :=
  indexEntryModules firstEntryModuleIndex unresolvedEntryModules entryModules
                    isUserDefined ;;;
  modify (set_indexedEntryModules (sortByComparator compareIndexedEntries)).

Definition thenEntryModules (loaded : Promise) (firstEntryModuleIndex : nat)
    (unresolvedEntryModules : list UnresolvedModule) (isUserDefined : bool)
  : Async Value :=
  entryModules <- awaitPromise loaded ;;
  indexAndSortEntryModules firstEntryModuleIndex unresolvedEntryModules
                           (refsOf entryModules) isUserDefined ;;;
  Ret entryModules.

Definition addEntryModules (unresolvedEntryModules : list UnresolvedModule)
    (isUserDefined : bool) : Async Value :=
  st <- get ;;
  let firstEntryModuleIndex := nextEntryModuleIndex st in
  modify (set_nextEntryModuleIndex
            (firstEntryModuleIndex + length unresolvedEntryModules)) ;;;
  loads <- spawnAll (map (fun unresolved =>
                            CLoadEntryModule (id unresolved) true (importer unresolved))
                         unresolvedEntryModules) ;;
  all <- spawn (CAll loads) ;;
  loadNewEntryModulesPromise <-
    spawn (CThenEntryModules all firstEntryModuleIndex unresolvedEntryModules
                             isUserDefined) ;;
  newEntryModules <- await_ (awaitLoadModulesPromise loadNewEntryModulesPromise) ;;
  st' <- get ;;
  Ret (VEntryResult (map ie_module (indexedEntryModules st'))
                    (manualChunkModules st') (refsOf newEntryModules)).

(** The loop of the [then] callback of [addManualChunks]. *)
Fixpoint assignLoadedManualChunks (unresolvedManualChunks : list (string * string))
    (manualChunkModules : list nat) : Async unit :=
  match unresolvedManualChunks, manualChunkModules with
  | (alias, _) :: unresolvedRest, module :: modulesRest =>
      addModuleToManualChunk alias module ;;;
      assignLoadedManualChunks unresolvedRest modulesRest
  | _, _ => Ret tt
  end.

Definition thenManualChunks (loaded : Promise)
    (unresolvedManualChunks : list (string * string)) : Async Value :=
  manualChunkModules <- awaitPromise loaded ;;
  assignLoadedManualChunks unresolvedManualChunks (refsOf manualChunkModules) ;;;
  Ret VUndefined.

(** [manualChunks] is given as its keys, in enumeration order, each with
    its list of ids; the pairs are [(alias, id)]. *)
Definition addManualChunks (manualChunks : list (string * list string)) : Async Value :=
  let unresolvedManualChunks :=
    flat_map (fun '(alias, manualChunkIds) => map (fun id => (alias, id)) manualChunkIds)
             manualChunks in
  loads <- spawnAll (map (fun '(_, id) => CLoadEntryModule id false None)
                         unresolvedManualChunks) ;;
  all <- spawn (CAll loads) ;;
  assigned <- spawn (CThenManualChunks all unresolvedManualChunks) ;;
  awaitLoadModulesPromise assigned.

(** The loop over [modulesById.values()]. *)
Fixpoint assignManualChunksLoop (getManualChunk : GetManualChunk) (modules : list nat)
  : Async unit :=
  match modules with
  | [] => Ret tt
  | module :: rest =>
      st <- get ;;
      (match heap st !! module with
       | Some (OModule m) =>
           manualChunkAlias <- traced (getManualChunk (m_id m) st) ;;
           match manualChunkAlias with
           | Some alias => addModuleToManualChunk alias module
           | None => Ret tt
           end
       | _ => Ret tt
       end) ;;;
      assignManualChunksLoop getManualChunk rest
  end.

Definition assignManualChunks (getManualChunk : GetManualChunk) : Async Value :=
  st <- get ;;
  assignManualChunksLoop getManualChunk (map snd (modulesById st)) ;;;
  Ret VUndefined.

(** The code each activation runs. *)
Definition body (c : Call) : Async Value :=
  match c with
  | CAll promises => vs <- awaitAll promises ;; Ret (VList vs)
  | CLoadEntryModule unresolvedId isEntry importer =>
      module <- loadEntryModule unresolvedId isEntry importer ;; Ret (VRef module)
  | CStaticDependency module source => staticDependency module source
  | CDynamicDependency module index => dynamicDependency module index
  | CThenEntryModules loaded first unresolved isUserDefined =>
      thenEntryModules loaded first unresolved isUserDefined
  | CThenManualChunks loaded unresolved => thenManualChunks loaded unresolved
  | CGetCombinedPromise => getCombinedPromise
  | CAddEntryModules unresolved isUserDefined => addEntryModules unresolved isUserDefined
  | CAddManualChunks manualChunks => addManualChunks manualChunks
  | CAssignManualChunks getManualChunk => assignManualChunks getManualChunk
  | CResolveId source importer skip =>
      resolved <- resolveId source importer skip ;; Ret (VResolved resolved)
  end.
End ModuleLoader.

(** ** Running programs *)

(** A program with no suspension point run to its end: the final loader and
    the value returned or the error thrown; [None] if it suspends or starts
    an activation. *)
Fixpoint runSync {A} (t : Async A) (st : Loader) : option (Loader * (Err + A)) :=
  match t with
  | Ret a => Some (st, inr a)
  | Throw e => Some (st, inl e)
  | Get k => runSync (k st) st
  | Put s k => runSync k s
  | _ => None
  end.

(** The synchronous prefix of a program: the loader when it first
    suspends, starts an activation, returns or throws, and what is left to
    run. *)
Fixpoint runPrefix {A} (t : Async A) (st : Loader) : Loader * Async A :=
  match t with
  | Get k => runPrefix (k st) st
  | Put s k => runPrefix k s
  | _ => (st, t)
  end.

(** An activation between two turns. *)
Inductive Task :=
| TStarting
| TYield (k : Async Value)
| TExt (c : ExtCall) (k : ExtReply -> Async Value)
| TJoin (ps : list Promise) (k : list Value -> Async Value)
| TDone (v : Value)
| TFailed (e : Err).

(** The loader, the activations (a promise is an index of [pool]) and the
    log of the calls made to the collaborators, each with the activation
    that made it. *)
Record World := {
  loader : Loader;
  pool : list Task;
  calls : list (nat * ExtCall)
}.

Definition withLoader (st : Loader) (w : World) : World :=
  {| loader := st; pool := pool w; calls := calls w |}.

Definition setTask (p : Promise) (t : Task) (w : World) : World :=
  {| loader := loader w; pool := <[p := t]> (pool w); calls := calls w |}.

Definition logCall (p : Promise) (c : ExtCall) (w : World) : World :=
  {| loader := loader w; pool := pool w; calls := calls w ++ [(p, c)] |}.

Section Machine.
Context (host : Host).

(** One turn of activation [self]: the program runs until it suspends,
    returns or throws.  Starting an activation runs its synchronous prefix
    inside the turn; [fuel] bounds the nesting of such starts. *)
Fixpoint turn (fuel : nat) : Promise -> Async Value -> World -> option (World * Task) :=
  fix go (self : Promise) (t : Async Value) (w : World) {struct t}
    : option (World * Task) :=
    match t with
    | Ret v => Some (w, TDone v)
    | Throw e => Some (w, TFailed e)
    | Get k => go self (k (loader w)) w
    | Put s k => go self k (withLoader s w)
    | Yield k => Some (w, TYield k)
    | AwaitExt c k => Some (logCall self c w, TExt c k)
    | AwaitAll ps k => Some (w, TJoin ps k)
    | Spawn c k =>
        match fuel with
        | 0 => None
        | S fuel' =>
            let child := length (pool w) in
            let w0 := {| loader := loader w; pool := pool w ++ [TStarting];
                         calls := calls w |} in
            match turn fuel' child (body host c) w0 with
            | Some (w1, task) => go self (k child) (setTask child task w1)
            | None => None
            end
        end
    end.

(** The settled values of a list of promises, or the first rejection in
    list order, or nothing while one of them is pending. *)
Fixpoint settled (tasks : list Task) (ps : list Promise) : option (Err + list Value) :=
  match ps with
  | [] => Some (inr [])
  | p :: rest =>
      match tasks !! p with
      | Some (TFailed e) => Some (inl e)
      | Some (TDone v) =>
          match settled tasks rest with
          | Some (inr vs) => Some (inr (v :: vs))
          | other => other
          end
      | _ =>
          match settled tasks rest with
          | Some (inl e) => Some (inl e)
          | _ => None
          end
      end
  end.

(** What happens next is chosen outside the loader: a public method is
    called, or a suspended activation is resumed, a call to a collaborator
    with the reply it settles with. *)
Inductive Choice :=
| Invoke (c : Call)
| Resume (p : Promise) (reply : option ExtReply).

Definition fuelPerTurn : nat := 8.

Definition runTurn (self : Promise) (t : Async Value) (w : World) : option World :=
  '(w', task) ← turn fuelPerTurn self t w;
  Some (setTask self task w').

Definition step (ch : Choice) (w : World) : option World :=
  match ch with
  | Invoke c =>
      if isPublic c
      then
        let self := length (pool w) in
        runTurn self (body host c)
                {| loader := loader w; pool := pool w ++ [TStarting];
                   calls := calls w |}
      else None
  | Resume p reply =>
      match pool w !! p, reply with
      | Some (TYield k), None => runTurn p k w
      | Some (TExt c k), Some r =>
          if replyFits c r then runTurn p (k r) w else None
      | Some (TJoin ps k), None =>
          match settled (pool w) ps with
          | Some (inr vs) => runTurn p (k vs) w
          | Some (inl e) => Some (setTask p (TFailed e) w)
          | None => None
          end
      | _, _ => None
      end
  end.

(** A schedule is the list of choices, in order. *)
Fixpoint run (schedule : list Choice) (w : World) : option World :=
  match schedule with
  | [] => Some w
  | ch :: rest => w' ← step ch w; run rest w'
  end.

(** The world a fresh loader starts in. *)
Definition initialWorld : World :=
  {| loader := newModuleLoader host; pool := [TDone VUndefined]; calls := [] |}.
End Machine.

(** ** Invariants of a run *)

(** The registry holds an internal module under [id]. *)
Definition isInternal (st : Loader) (id : string) : Prop :=
  exists r m, mapGet id (modulesById st) = Some r /\ heap st !! r = Some (OModule m).

(** The ids the load hook was called for, in order. *)
Definition loadedIds (log : list (nat * ExtCall)) : list string :=
  omap (fun entry => match entry.2 with callLoadHook id => Some id | _ => None end) log.

(** The calls one activation made, in order. *)
Definition callsOf (self : nat) (log : list (nat * ExtCall)) : list ExtCall :=
  omap (fun entry => if bool_decide (entry.1 = self) then Some entry.2 else None) log.

(** How far one activation is with the source of a module: it calls the
    load hook at most once, then reads the file and transforms the source at
    most once each, for the id it loaded. *)
Inductive Phase :=
| Unloaded
| Loading (id : string)
| Reading (id : string)
| Transforming (id : string)
| Stuck.

Definition advance (ph : Phase) (c : ExtCall) : Phase :=
  match c with
  | callLoadHook id =>
      match ph with Unloaded => Loading id | _ => Stuck end
  | callReadFile id =>
      match ph with
      | Loading id' => if bool_decide (id' = id) then Reading id else Stuck
      | _ => Stuck
      end
  | callTransform _ _ id =>
      match ph with
      | Loading id' | Reading id' => if bool_decide (id' = id) then Transforming id else Stuck
      | _ => Stuck
      end
  | _ => ph
  end.

Definition phaseOf (self : nat) (log : list (nat * ExtCall)) : Phase :=
  foldl advance Unloaded (callsOf self log).

(** What holds of the loader and the log of calls between two turns. *)
Record Consistent (st : Loader) (log : list (nat * ExtCall)) : Prop := {
  loads_once : NoDup (loadedIds log);
  loads_registered : forall id, id ∈ loadedIds log -> isInternal st id;
  modules_registered :
    forall r m, heap st !! r = Some (OModule m) ->
                mapGet (m_id m) (modulesById st) = Some r;
  phases_ok : forall p, phaseOf p log <> Stuck
}.

(** The part of the loader [Consistent] depends on. *)
Definition shape (st : Loader) : list (string * nat) * list (bool * string) :=
  (modulesById st, (fun o => (isModule o, objId o)) <$> heap st).

(** What an activation may assume when it resumes: the invariant, and that
    nobody else made calls in its name. *)
Definition Rely (self : nat) (log : list (nat * ExtCall))
    (st' : Loader) (log' : list (nat * ExtCall)) : Prop :=
  Consistent st' log' /\ callsOf self log' = callsOf self log.

(** [SafeQ self t st log Q]: run by activation [self] from [st] and [log],
    the program [t] leaves the invariant in place at every suspension point
    and when it throws, and [Q] holds when it returns, whatever happens while
    it is suspended. *)
Fixpoint SafeQ {A} (self : nat) (t : Async A) (st : Loader) (log : list (nat * ExtCall))
    (Q : A -> Loader -> list (nat * ExtCall) -> Prop) : Prop :=
  match t with
  | Ret a => Q a st log
  | Throw _ => Consistent st log
  | Get k => SafeQ self (k st) st log Q
  | Put s k => SafeQ self k s log Q
  | Yield k =>
      Consistent st log /\
      forall st' log', Rely self log st' log' -> SafeQ self k st' log' Q
  | AwaitExt c k =>
      Consistent st (log ++ [(self, c)]) /\
      forall r st' log', Rely self (log ++ [(self, c)]) st' log' -> SafeQ self (k r) st' log' Q
  | Spawn _ k =>
      Consistent st log /\
      forall p st' log', Rely self log st' log' -> SafeQ self (k p) st' log' Q
  | AwaitAll _ k =>
      Consistent st log /\
      forall vs st' log', Rely self log st' log' -> SafeQ self (k vs) st' log' Q
  end.

Definition Safe (self : nat) (t : Async Value) (st : Loader) (log : list (nat * ExtCall)) : Prop :=
  SafeQ self t st log (fun _ st' log' => Consistent st' log').

(** A synchronous program that leaves the registry and the kind and id of
    every object as they are. *)
Definition Quiet {A} (t : Async A) : Prop :=
  forall st, exists st' r, runSync t st = Some (st', r) /\ shape st' = shape st.

(** A program that keeps the invariant and makes no call that advances the
    phase of its activation. *)
Definition Keeps {A} (t : Async A) : Prop :=
  forall self st log, Consistent st log ->
    SafeQ self t st log
      (fun _ st' log' => Consistent st' log' /\ phaseOf self log' = phaseOf self log).

(** A program that keeps the invariant. *)
Definition Harmless {A} (t : Async A) : Prop :=
  forall self st log, Consistent st log ->
    SafeQ self t st log (fun _ st' log' => Consistent st' log').

(** A program that keeps the invariant when its activation has not loaded
    anything yet. *)
Definition LoadSafe {A} (t : Async A) : Prop :=
  forall self st log, Consistent st log -> phaseOf self log = Unloaded ->
    SafeQ self t st log (fun _ st' log' => Consistent st' log').

(** What is known of a suspended activation. *)
Definition TaskOK (p : nat) (mine : list ExtCall) (task : Task) : Prop :=
  match task with
  | TYield k =>
      forall st' log', Consistent st' log' -> callsOf p log' = mine -> Safe p k st' log'
  | TExt _ k =>
      forall r st' log', Consistent st' log' -> callsOf p log' = mine -> Safe p (k r) st' log'
  | TJoin _ k =>
      forall vs st' log', Consistent st' log' -> callsOf p log' = mine -> Safe p (k vs) st' log'
  | _ => True
  end.

Record WorldOK (w : World) : Prop := {
  world_consistent : Consistent (loader w) (calls w);
  world_tags : forall entry, entry ∈ calls w -> entry.1 < length (pool w);
  world_tasks : forall p task, pool w !! p = Some task -> TaskOK p (callsOf p (calls w)) task
}.

(** *** Counting the calls made for one id *)

Definition isLoadOf (id : string) (c : ExtCall) : bool :=
  match c with callLoadHook id' => bool_decide (id' = id) | _ => false end.

Definition isReadOf (id : string) (c : ExtCall) : bool :=
  match c with callReadFile id' => bool_decide (id' = id) | _ => false end.

Definition isTransformOf (id : string) (c : ExtCall) : bool :=
  match c with callTransform _ _ id' => bool_decide (id' = id) | _ => false end.

Definition countCalls (P : ExtCall -> bool) (log : list (nat * ExtCall)) : nat :=
  length (filter (fun entry => P entry.2 = true) log).

(** ** A concrete host and concrete runs *)

(** A host with no configured externals, every module side-effectful, no
    cache, and path helpers that are enough for absolute ids. *)
Definition exampleHost : Host :=
  {| isRelative := fun s => String.prefix "." s || String.prefix "/" s;
     resolve := fun segments => foldr (fun a b => a +:+ "/" +:+ b) "" segments;
     relativeId := fun id => id;
     external := OptBool false;
     moduleSideEffects := MSEBool true;
     pureExternalModules := OptBool false;
     preserveSymlinks := false;
     cachedModules := ∅ |}.

Definition entry (id : string) : UnresolvedModule :=
  {| fileName := None; id := id; importer := None; name := None |}.

Definition bodyWith (sources : list string) (dynamicImports : list Specifier)
    (exportAllSources exports : list string) : ModuleInfo :=
  {| info_sources := sources; info_dynamicImports := dynamicImports;
     info_exportAllSources := exportAllSources; info_exports := exports |}.

(** The entry [main] is resolved to [/main], loaded and transformed; its
    body is [info]; the last choice starts the activations of its
    dependencies, the first of which is activation [7]. *)
Definition loadMain (info : ModuleInfo) : list (Choice) :=
  [ Invoke (CAddEntryModules [entry "main"] true);
    Resume 2 (Some (replyResolveId (RString "/main")));
    Resume 2 (Some (replyLoad (LString "code")));
    Resume 2 (Some (replyTransform info));
    Resume 2 None ].

(** What a run shows of the registry: the keys with their references, and
    the kind and id of every object of the heap. *)
Definition registryAfter (schedule : list Choice)
  : option (list (string * nat) * list (bool * string)) :=
  w ← run exampleHost schedule (initialWorld exampleHost);
  Some (shape (loader w)).

(** [main] imports [a] and [b]; a plugin resolves [a] to the external id
    [/shared], and [b] to the same id as an internal module. *)
Definition sharedAsExternal : list Choice :=
  loadMain (bodyWith ["a"; "b"] [] [] []) ++
  [ Resume 7 (Some (replyResolveId
                      (RObject {| pr_id := "/shared"; pr_external := true;
                                  pr_moduleSideEffects := None;
                                  pr_syntheticNamedExports := None |})));
    Resume 7 None ].

Definition sharedThenInternal : list Choice :=
  sharedAsExternal ++
  [ Resume 8 (Some (replyResolveId (RString "/shared")));
    Resume 8 None ].

(** The memo entry of module [0] for a specifier after a run. *)
Definition memoAfter (schedule : list Choice) (specifier : string) : option ResolvedId :=
  w ← run exampleHost schedule (initialWorld exampleHost);
  o ← heap (loader w) !! 0;
  match o with
  | OModule m => m_resolvedIds m !! specifier
  | OExternal _ => None
  end.

(** [main] has [import 'dep'] and [import('dep')]; no plugin answers the
    [resolveDynamicImport] hook, so both paths go to [resolveId], whose
    plugin is slow: the dynamic path asks before the static path is
    answered. *)
Definition bothPathsAsk : list Choice :=
  loadMain (bodyWith ["dep"] [SpecString "dep"] [] []) ++
  [ Resume 8 (Some (replyResolveId RNullish)) ].

Definition dynamicPathStores : list Choice :=
  bothPathsAsk ++
  [ Resume 8 (Some (replyResolveId (RString "/a/x")));
    Resume 8 None ].

Definition staticPathStores : list Choice :=
  dynamicPathStores ++
  [ Resume 7 (Some (replyResolveId (RString "/a/y")));
    Resume 7 None ].

Definition isResolveOf (source importer : string) (c : ExtCall) : bool :=
  match c with
  | callResolveId s (Some i) _ _ => bool_decide (s = source) && bool_decide (i = importer)
  | _ => false
  end.

Definition callsAfter (schedule : list Choice) : option (list (nat * ExtCall)) :=
  calls <$> run exampleHost schedule (initialWorld exampleHost).

(** *** Auxiliary notions of the proofs *)

(** An update of an object that keeps its kind and its id. *)
Definition keepsKind (f : Obj -> Obj) : Prop :=
  forall o, isModule (f o) = isModule o /\ objId (f o) = objId o.

Definition loadedBy (c : ExtCall) : list string :=
  match c with callLoadHook id => [id] | _ => [] end.

(** Calls that resolve do not advance the phase. *)
Definition resolves (c : ExtCall) : bool :=
  match c with
  | callResolveId _ _ _ _ | callResolveDynamicImportHook _ _ => true
  | _ => false
  end.

Definition tagsBounded (w : World) : Prop :=
  forall entry, entry ∈ calls w -> entry.1 < length (pool w).

(** The activations that are not running are as the invariant wants
    them. *)
Definition othersOK (busy : list nat) (w : World) : Prop :=
  forall p task, p ∉ busy -> pool w !! p = Some task ->
                 TaskOK p (callsOf p (calls w)) task.

Definition count (P : ExtCall -> bool) (l : list ExtCall) : nat :=
  length (filter (fun c => P c = true) l).

(** What one activation may still do for [id] without loading it first. *)
Definition readsLeft (id : string) (ph : Phase) : nat :=
  match ph with
  | Loading id' => if bool_decide (id' = id) then 1 else 0
  | _ => 0
  end.

Definition transformsLeft (id : string) (ph : Phase) : nat :=
  match ph with
  | Loading id' | Reading id' => if bool_decide (id' = id) then 1 else 0
  | _ => 0
  end.

(** Two hosts with the same collaborators: they may differ in the options
    [external], [moduleSideEffects] and [pureExternalModules] and in the path
    predicates. *)
Definition sameCollaborators (host host' : Host) : Prop :=
  relativeId host = relativeId host'
  /\ preserveSymlinks host = preserveSymlinks host'
  /\ cachedModules host = cachedModules host'.

(** The id a raw resolution gives an entry, when it is not external: a
    string, or the [id] of an object whose [external] is not set. *)
Definition resolvesInternalTo (result : ResolveIdResult) : option string :=
  match result with
  | RString id => Some id
  | RObject o => if pr_external o then None else Some (pr_id o)
  | RFalse | RNullish => None
  end.

(** *** The export linker, as a function of the names *)


(** One [export *] from an internal dependency with the mapping
    [dependencyExportsAll]: a name that is already present keeps its mapping
    and gives a [NAMESPACE_CONFLICT] warning, a name that is absent is
    copied. *)
Definition copyExportsAll (moduleId dependencyId : string)
    (dependencyExportsAll : list (string * string)) (names : list string)
    (acc : list (string * string) * list Event) : list (string * string) * list Event :=
  foldl (fun acc name =>
           if mapHas name acc.1
           then (acc.1, acc.2 ++ [EvWarn (errNamespaceConflict name moduleId dependencyId)])
           else match mapGet name dependencyExportsAll with
                | Some definer => (mapSet name definer acc.1, acc.2)
                | None => acc
                end)
        acc names.






(** *** Manual chunks: a concrete run *)

(** [addManualChunks({a: ['lib']})] run to its end: [lib] is resolved to
    [/lib], loaded and transformed to a body without dependencies, and the
    [then] callback assigns it to chunk [a]. *)
Definition manualChunkAdded : list Choice :=
  [ Invoke (CAddManualChunks [("a", ["lib"])]);
    Resume 2 (Some (replyResolveId (RString "/lib")));
    Resume 2 (Some (replyLoad (LString "code")));
    Resume 2 (Some (replyTransform (bodyWith [] [] [] [])));
    Resume 2 None;
    Resume 2 None;
    Resume 3 None;
    Resume 4 None;
    Resume 5 None;
    Resume 6 None;
    Resume 1 None;
    Resume 1 None ].

(** A [getManualChunk] that returns [a] for [/lib] and nothing else. *)
Definition libInChunkA : GetManualChunk :=
  fun id _ => (if bool_decide (id = "/lib") then Some "a" else None, []).

Definition manualChunkAssignedAgain : list Choice :=
  manualChunkAdded ++ [ Invoke (CAssignManualChunks libInChunkA) ].

(** What a run leaves under an alias of [manualChunkModules], and the alias
    of module [0]. *)
Definition chunkAfter (schedule : list Choice) (alias : string) : option (list nat) :=
  w ← run exampleHost schedule (initialWorld exampleHost);
  manualChunkModules (loader w) !! alias.

Definition aliasAfter (schedule : list Choice) : option (option string) :=
  w ← run exampleHost schedule (initialWorld exampleHost);
  o ← heap (loader w) !! 0;
  match o with
  | OModule m => Some (m_manualChunkAlias m)
  | OExternal _ => None
  end.

Definition failedAfter (schedule : list Choice) : option (list Err) :=
  w ← run exampleHost schedule (initialWorld exampleHost);
  Some (omap (fun task => match task with TFailed e => Some e | _ => None end) (pool w)).

Definition isSettled (task : Task) : bool :=
  match task with TDone _ | TFailed _ => true | _ => false end.

Definition pendingAfter (schedule : list Choice) : option nat :=
  w ← run exampleHost schedule (initialWorld exampleHost);
  Some (length (filter (fun task => isSettled task = false) (pool w))).

(** [st'] is [st] but for [manualChunkModules]. *)
Definition sameButChunks (st st' : Loader) : Prop :=
  heap st' = heap st
  /\ modulesById st' = modulesById st
  /\ indexedEntryModules st' = indexedEntryModules st
  /\ latestLoadModulesPromise st' = latestLoadModulesPromise st
  /\ nextEntryModuleIndex st' = nextEntryModuleIndex st
  /\ watchFiles st' = watchFiles st
  /\ trace st' = trace st.

(** *** The entry list, as a function of the reservations *)











(** ** Concrete inputs of the theorems *)

(** A synthetic id: the NUL character, then a name. *)
Definition syntheticId : string := String Ascii.zero "commonjsHelpers".

(** User callables that record that they were invoked. *)
Definition recordingExternal : string -> option string * bool -> Traced UserBool :=
  fun id _ => (UTrue, [EvInvoked "external" id]).

Definition recordingSideEffects : string -> bool -> Traced UserBool :=
  fun id _ => (UFalse, [EvInvoked "moduleSideEffects" id]).

Definition recordingHost : Host :=
  {| isRelative := isRelative exampleHost;
     resolve := resolve exampleHost;
     relativeId := relativeId exampleHost;
     external := OptFn recordingExternal;
     moduleSideEffects := MSEFn recordingSideEffects;
     pureExternalModules := OptBool false;
     preserveSymlinks := false;
     cachedModules := ∅ |}.

(** The world and the loader a schedule leaves, and a module of its heap. *)
Definition worldAfter (schedule : list Choice) : World :=
  default (initialWorld exampleHost) (run exampleHost schedule (initialWorld exampleHost)).

Definition loaderAfter (schedule : list Choice) : Loader := loader (worldAfter schedule).

Definition moduleAfter (schedule : list Choice) (r : nat) : Module :=
  match heap (loaderAfter schedule) !! r with
  | Some (OModule m) => m
  | _ => newModule "" true false false
  end.

(** The entry [main], with a body that imports and exports nothing, loaded;
    the [then] callback of its batch has not run yet. *)
Definition mainLoaded : list Choice := loadMain (bodyWith [] [] [] []).





(** ** Inputs and notions of the further properties *)

(** A host whose [external] option lists [lodash] and every id under
    [node:]. *)
Definition listHost : Host :=
  {| isRelative := isRelative exampleHost;
     resolve := resolve exampleHost;
     relativeId := relativeId exampleHost;
     external := OptList [inl "lodash"; inr {| test := String.prefix "node:" |}];
     moduleSideEffects := MSEBool true;
     pureExternalModules := OptBool false;
     preserveSymlinks := false;
     cachedModules := ∅ |}.


(** A host whose cache holds [/cached] with the code [code] and two files
    emitted by its transformation. *)
Definition cachedHost : Host :=
  {| isRelative := isRelative exampleHost;
     resolve := resolve exampleHost;
     relativeId := relativeId exampleHost;
     external := OptBool false;
     moduleSideEffects := MSEBool true;
     pureExternalModules := OptBool false;
     preserveSymlinks := false;
     cachedModules :=
       {[ "/cached" := {| cm_customTransformCache := false; cm_originalCode := "code";
                          cm_transformFiles := Some ["asset-1"; "asset-2"];
                          cm_info := bodyWith ["./dep"] [] [] ["default"] |} ]} |}.



(** The message [addModuleSource] gives a failed load. *)
Definition couldNotLoad (host : Host) (id : string) (importer : option string)
    (message : string) : string :=
  "Could not load " +:+ id +:+
  (if truthyString importer
   then " (imported by " +:+ relativeId host (default "" importer) +:+ ")"
   else "") +:+
  ": " +:+ message.

(** A [getManualChunk] that puts [/shared] into the chunk [vendor], and
    records that it ran. *)
Definition sharedInVendor : GetManualChunk :=
  fun id _ =>
    if bool_decide (id = "/shared")
    then (Some "vendor", [EvInvoked "getManualChunk" id])
    else (None, []).

(** An entry given with a file name and a name. *)
Definition namedEntry : UnresolvedModule :=
  {| fileName := Some "main.js"; id := "main"; importer := None; name := Some "main" |}.

(** The entry [main] is resolved to [/main]; the load hook has nothing for
    it, so the file is read. *)
Definition mainReadFromDisk : list Choice :=
  [ Invoke (CAddEntryModules [entry "main"] true);
    Resume 2 (Some (replyResolveId (RString "/main")));
    Resume 2 (Some (replyLoad LNullish)) ].

(** * Theorems *)

Arguments turn : simpl never.

(** ** The program logic *)

Lemma runSync_bind {A B} (m : Async A) (f : A -> Async B) (st : Loader) :
  runSync (bind m f) st =
  match runSync m st with
  | Some (st', inr a) => runSync (f a) st'
  | Some (st', inl e) => Some (st', inl e)
  | None => None
  end.
Proof. revert st. induction m; intros st; simpl; eauto. Qed.

Lemma SafeQ_mono {A} self (t : Async A) st log (Q Q' : A -> Loader -> list (nat * ExtCall) -> Prop) :
  (forall a st' log', Q a st' log' -> Q' a st' log') ->
  SafeQ self t st log Q -> SafeQ self t st log Q'.
Proof.
  intros HQ. revert st log.
  induction t; intros st log; simpl; eauto;
    intros [Hc Hk]; split; eauto.
Qed.

Lemma SafeQ_bind {A B} self (m : Async A) (f : A -> Async B) st log Q :
  SafeQ self m st log (fun a st' log' => SafeQ self (f a) st' log' Q) ->
  SafeQ self (bind m f) st log Q.
Proof.
  revert st log.
  induction m; intros st log; simpl; eauto;
    intros [Hc Hk]; split; eauto.
Qed.

Lemma SafeQ_runSync {A} self (t : Async A) st log Q st' r :
  runSync t st = Some (st', r) ->
  match r with
  | inr a => Q a st' log
  | inl _ => Consistent st' log
  end ->
  SafeQ self t st log Q.
Proof.
  revert st. induction t; intros st Hrun HQ; simpl in *; try discriminate; eauto.
  - by simplify_eq.
  - by simplify_eq.
Qed.

Lemma Consistent_shape st st' log :
  shape st' = shape st -> Consistent st log -> Consistent st' log.
Proof.
  unfold shape. intros Hshape [H1 H2 H3 H4].
  injection Hshape as Hreg Hheap.
  assert (Hobj : forall r m', heap st' !! r = Some (OModule m') ->
                  exists m, heap st !! r = Some (OModule m) /\ m_id m = m_id m').
  { intros r m' Hr.
    assert (Hl : ((fun o => (isModule o, objId o)) <$> heap st) !! r = Some (true, m_id m')).
    { rewrite <- Hheap, list_lookup_fmap, Hr. done. }
    rewrite list_lookup_fmap in Hl.
    destruct (heap st !! r) as [[m|x]|]; simplify_eq/=. eauto. }
  assert (Hobj' : forall r m, heap st !! r = Some (OModule m) ->
                  exists m', heap st' !! r = Some (OModule m') /\ m_id m' = m_id m).
  { intros r m Hr.
    assert (Hl : ((fun o => (isModule o, objId o)) <$> heap st') !! r = Some (true, m_id m)).
    { rewrite Hheap, list_lookup_fmap, Hr. done. }
    rewrite list_lookup_fmap in Hl.
    destruct (heap st' !! r) as [[m'|x]|]; simplify_eq/=. eauto. }
  split; auto.
  - intros id Hid. destruct (H2 id Hid) as (r & m & Hr & Hm).
    destruct (Hobj' r m Hm) as (m' & Hm' & _).
    exists r, m'. by rewrite Hreg.
  - intros r m' Hr. destruct (Hobj r m' Hr) as (m & Hm & Hid).
    rewrite Hreg, <- Hid. eauto.
Qed.

Lemma Quiet_ret {A} (a : A) : Quiet (Ret a).
Proof. intros st. by exists st, (inr a). Qed.

Lemma Quiet_throw {A} e : Quiet (@Throw A e).
Proof. intros st. by exists st, (inl e). Qed.

Lemma Quiet_error {A} e : Quiet (@error A e).
Proof. apply Quiet_throw. Qed.

Lemma Quiet_get : Quiet get.
Proof. intros st. by exists st, (inr st). Qed.

Lemma Quiet_modify f : (forall st, shape (f st) = shape st) -> Quiet (modify f).
Proof. intros Hf st. exists (f st), (inr tt). split; [done|apply Hf]. Qed.

Lemma Quiet_bind {A B} (m : Async A) (f : A -> Async B) :
  Quiet m -> (forall a, Quiet (f a)) -> Quiet (bind m f).
Proof.
  intros Hm Hf st. destruct (Hm st) as (st1 & r & Hrun & Hshape).
  rewrite runSync_bind, Hrun. destruct r as [e|a].
  - by exists st1, (inl e).
  - destruct (Hf a st1) as (st2 & r2 & Hrun2 & Hshape2).
    exists st2, r2. split; [done|congruence].
Qed.

Lemma Quiet_Get {A} (k : Loader -> Async A) : (forall st, Quiet (k st)) -> Quiet (Get k).
Proof. intros Hk st. simpl. apply Hk. Qed.

Lemma Quiet_Keeps {A} (t : Async A) : Quiet t -> Keeps t.
Proof.
  intros Hq self st log Hc. destruct (Hq st) as (st' & r & Hrun & Hshape).
  eapply SafeQ_runSync; [done|].
  destruct r; eauto using Consistent_shape.
Qed.

Lemma Keeps_Harmless {A} (t : Async A) : Keeps t -> Harmless t.
Proof.
  intros Hk self st log Hc. eapply SafeQ_mono; [|by apply Hk]. naive_solver.
Qed.

Lemma Harmless_LoadSafe {A} (t : Async A) : Harmless t -> LoadSafe t.
Proof. intros Hh self st log Hc _. by apply Hh. Qed.

Lemma Quiet_Harmless {A} (t : Async A) : Quiet t -> Harmless t.
Proof. intros. by apply Keeps_Harmless, Quiet_Keeps. Qed.

Lemma Keeps_bind {A B} (m : Async A) (f : A -> Async B) :
  Keeps m -> (forall a, Keeps (f a)) -> Keeps (bind m f).
Proof.
  intros Hm Hf self st log Hc. apply SafeQ_bind.
  eapply SafeQ_mono; [|by apply Hm].
  intros a st' log' [Hc' Hph]. simpl.
  eapply SafeQ_mono; [|by apply Hf].
  intros b st'' log'' [Hc'' Hph']. split; [done|congruence].
Qed.

Lemma Harmless_bind {A B} (m : Async A) (f : A -> Async B) :
  Harmless m -> (forall a, Harmless (f a)) -> Harmless (bind m f).
Proof.
  intros Hm Hf self st log Hc. apply SafeQ_bind.
  eapply SafeQ_mono; [|by apply Hm].
  intros a st' log' Hc'. by apply Hf.
Qed.

Lemma LoadSafe_bind_Keeps {A B} (m : Async A) (f : A -> Async B) :
  Keeps m -> (forall a, LoadSafe (f a)) -> LoadSafe (bind m f).
Proof.
  intros Hm Hf self st log Hc Hph. apply SafeQ_bind.
  eapply SafeQ_mono; [|by apply Hm].
  intros a st' log' [Hc' Hph']. apply Hf; [done|congruence].
Qed.

Lemma LoadSafe_bind_Harmless {A B} (m : Async A) (f : A -> Async B) :
  LoadSafe m -> (forall a, Harmless (f a)) -> LoadSafe (bind m f).
Proof.
  intros Hm Hf self st log Hc Hph. apply SafeQ_bind.
  eapply SafeQ_mono; [|by apply Hm].
  intros a st' log' Hc'. by apply Hf.
Qed.

Lemma Keeps_Yield {A} (k : Async A) : Keeps k -> Keeps (Yield k).
Proof.
  intros Hk self st log Hc. simpl. split; [done|].
  intros st' log' [Hc' Hmine].
  eapply SafeQ_mono; [|by apply Hk].
  intros _ st'' log'' [Hc'' Hph]. split; [done|]. rewrite Hph.
  unfold phaseOf. by rewrite Hmine.
Qed.

Lemma Harmless_Yield {A} (k : Async A) : Harmless k -> Harmless (Yield k).
Proof.
  intros Hk self st log Hc. simpl. split; [done|].
  intros st' log' [Hc' Hmine]. by apply Hk.
Qed.

Lemma Keeps_await_ {A} (m : Async A) : Keeps m -> Keeps (await_ m).
Proof. intros Hm. apply Keeps_bind; [done|]. intros a. apply Keeps_Yield, Quiet_Keeps, Quiet_ret. Qed.

Lemma Keeps_spawn c : Keeps (spawn c).
Proof.
  intros self st log Hc. simpl. split; [done|].
  intros p st' log' [Hc' Hmine]. split; [done|]. unfold phaseOf. by rewrite Hmine.
Qed.

Lemma Keeps_awaitAll ps : Keeps (awaitAll ps).
Proof.
  intros self st log Hc. simpl. split; [done|].
  intros p st' log' [Hc' Hmine]. split; [done|]. unfold phaseOf. by rewrite Hmine.
Qed.

Lemma Keeps_awaitPromise p : Keeps (awaitPromise p).
Proof.
  apply Keeps_bind; [apply Keeps_awaitAll|].
  intros [|v [|? ?]]; apply Quiet_Keeps, Quiet_ret.
Qed.

Lemma Keeps_spawnAll cs : Keeps (spawnAll cs).
Proof.
  induction cs as [|c cs IH].
  - apply Quiet_Keeps, Quiet_ret.
  - change (spawnAll (c :: cs)) with (p <- spawn c ;; ps <- spawnAll cs ;; Ret (p :: ps)).
    apply Keeps_bind; [apply Keeps_spawn|]. intros p.
    apply Keeps_bind; [done|]. intros ps. apply Quiet_Keeps, Quiet_ret.
Qed.

(** ** Updates that keep the shape *)

Lemma writeModule_id w m : m_id (writeModule w m) = m_id m.
Proof. by destruct w. Qed.

Lemma keepsKind_writeObj w : keepsKind (writeObj w).
Proof. intros [m|x]; simpl; [|done]. by rewrite writeModule_id. Qed.

Lemma keepsKind_pushImporter id : keepsKind (pushImporter id).
Proof. by intros [m|x]. Qed.

Lemma keepsKind_pushDynamicImporter id : keepsKind (pushDynamicImporter id).
Proof. by intros [m|x]. Qed.

Lemma shape_alter f r st :
  keepsKind f -> shape (set_heap (alter f r) st) = shape st.
Proof.
  intros Hf. unfold shape. simpl. f_equal.
  apply list_eq. intros i. rewrite !list_lookup_fmap.
  destruct (decide (i = r)) as [->|Hne].
  - rewrite list_lookup_alter_eq. destruct (heap st !! r) as [o|]; simpl; [|done].
    destruct (Hf o) as [-> ->]. done.
  - by rewrite list_lookup_alter_ne.
Qed.

Lemma shape_emit evs st : shape (emit evs st) = shape st.
Proof. by destruct evs. Qed.

Create HintDb quiet discriminated.

Ltac quiet_step :=
  lazymatch goal with
  | |- Quiet (Ret _) => apply Quiet_ret
  | |- Quiet (Throw _) => apply Quiet_throw
  | |- Quiet (error _) => apply Quiet_throw
  | |- Quiet get => apply Quiet_get
  | |- Quiet (bind _ _) => apply Quiet_bind; [|intros ?]
  | |- Quiet (match ?x with _ => _ end) => destruct x
  | |- Quiet _ => solve [eauto with quiet]
  end.
Ltac quiet := repeat quiet_step.

Lemma Quiet_writeField r w : Quiet (writeField r w).
Proof. apply Quiet_modify. intros st. apply shape_alter, keepsKind_writeObj. Qed.
#[export] Hint Resolve Quiet_writeField : quiet.

Lemma Quiet_readModule r : Quiet (readModule r).
Proof. unfold readModule. quiet. Qed.
#[export] Hint Resolve Quiet_readModule : quiet.

Lemma Quiet_warn w : Quiet (warn w).
Proof. by apply Quiet_modify. Qed.
#[export] Hint Resolve Quiet_warn : quiet.

Lemma Quiet_traced {A} (m : Traced A) : Quiet (traced m).
Proof.
  unfold traced. apply Quiet_bind; [|intros; apply Quiet_ret].
  apply Quiet_modify. intros st. apply shape_emit.
Qed.
#[export] Hint Resolve Quiet_traced : quiet.

Lemma Quiet_emitFiles files : Quiet (emitFiles files).
Proof. apply Quiet_modify. intros st. apply shape_emit. Qed.
#[export] Hint Resolve Quiet_emitFiles : quiet.

Lemma Quiet_pushImporter id r :
  Quiet (modify (set_heap (alter (pushImporter id) r))).
Proof. apply Quiet_modify. intros st. apply shape_alter, keepsKind_pushImporter. Qed.
#[export] Hint Resolve Quiet_pushImporter : quiet.

Lemma Quiet_pushDynamicImporter id r :
  Quiet (modify (set_heap (alter (pushDynamicImporter id) r))).
Proof. apply Quiet_modify. intros st. apply shape_alter, keepsKind_pushDynamicImporter. Qed.
#[export] Hint Resolve Quiet_pushDynamicImporter : quiet.

Lemma Quiet_set_manualChunkModules f : Quiet (modify (set_manualChunkModules f)).
Proof. by apply Quiet_modify. Qed.
Lemma Quiet_set_indexedEntryModules f : Quiet (modify (set_indexedEntryModules f)).
Proof. by apply Quiet_modify. Qed.
Lemma Quiet_set_nextEntryModuleIndex n : Quiet (modify (set_nextEntryModuleIndex n)).
Proof. by apply Quiet_modify. Qed.
Lemma Quiet_set_latestLoadModulesPromise p : Quiet (modify (set_latestLoadModulesPromise p)).
Proof. by apply Quiet_modify. Qed.
Lemma Quiet_set_watchFiles f : Quiet (modify (set_watchFiles f)).
Proof. by apply Quiet_modify. Qed.
#[export] Hint Resolve Quiet_set_manualChunkModules Quiet_set_indexedEntryModules
  Quiet_set_nextEntryModuleIndex Quiet_set_latestLoadModulesPromise
  Quiet_set_watchFiles : quiet.

Lemma Quiet_expectResolveIdResult reply : Quiet (expectResolveIdResult reply).
Proof. unfold expectResolveIdResult. quiet. Qed.
#[export] Hint Resolve Quiet_expectResolveIdResult : quiet.

Lemma Quiet_handleResolveId host resolved source importer :
  Quiet (handleResolveId host resolved source importer).
Proof. unfold handleResolveId. quiet. Qed.
#[export] Hint Resolve Quiet_handleResolveId : quiet.

Lemma Quiet_normalizeResolveIdResult host r importer source :
  Quiet (normalizeResolveIdResult host r importer source).
Proof. unfold normalizeResolveIdResult. quiet. Qed.
#[export] Hint Resolve Quiet_normalizeResolveIdResult : quiet.

Lemma Quiet_addModuleToManualChunk alias module :
  Quiet (addModuleToManualChunk alias module).
Proof. unfold addModuleToManualChunk. quiet. Qed.
#[export] Hint Resolve Quiet_addModuleToManualChunk : quiet.

Lemma Quiet_linkExports module names : Quiet (linkExports module names).
Proof.
  induction names as [|name rest IH]; [apply Quiet_ret|].
  change (linkExports module (name :: rest)) with
    ((if bool_decide (name ≠ "default")
      then m <- readModule module ;;
           writeField module (W_exportsAll (mapSet name (m_id m) (m_exportsAll m)))
      else Ret tt) ;;; linkExports module rest).
  quiet.
Qed.
#[export] Hint Resolve Quiet_linkExports : quiet.

Lemma Quiet_linkExportAllNames module dep names :
  Quiet (linkExportAllNames module dep names).
Proof.
  induction names as [|name rest IH]; [apply Quiet_ret|].
  cbn [linkExportAllNames]. quiet.
Qed.
#[export] Hint Resolve Quiet_linkExportAllNames : quiet.

Lemma Quiet_linkExportAllSources module sources :
  Quiet (linkExportAllSources module sources).
Proof.
  induction sources as [|source rest IH]; [apply Quiet_ret|].
  cbn [linkExportAllSources]. quiet.
Qed.
#[export] Hint Resolve Quiet_linkExportAllSources : quiet.

Lemma Quiet_linkModule module : Quiet (linkModule module).
Proof. unfold linkModule. quiet. Qed.
#[export] Hint Resolve Quiet_linkModule : quiet.

Lemma Quiet_setResolution module index resolution :
  Quiet (setResolution module index resolution).
Proof. unfold setResolution. quiet. Qed.
#[export] Hint Resolve Quiet_setResolution : quiet.

Lemma Quiet_indexEntryModules moduleIndex unresolved entryModules isUserDefined :
  Quiet (indexEntryModules moduleIndex unresolved entryModules isUserDefined).
Proof.
  revert moduleIndex entryModules.
  induction unresolved as [|u us IH]; intros moduleIndex [|e es];
    try apply Quiet_ret.
  cbn [indexEntryModules]. quiet.
Qed.
#[export] Hint Resolve Quiet_indexEntryModules : quiet.

Lemma Quiet_indexAndSortEntryModules first unresolved entryModules isUserDefined :
  Quiet (indexAndSortEntryModules first unresolved entryModules isUserDefined).
Proof. unfold indexAndSortEntryModules. quiet. Qed.
#[export] Hint Resolve Quiet_indexAndSortEntryModules : quiet.

Lemma Quiet_assignLoadedManualChunks unresolved modules :
  Quiet (assignLoadedManualChunks unresolved modules).
Proof.
  revert modules.
  induction unresolved as [|[alias i] us IH]; intros [|module ms]; try apply Quiet_ret.
  cbn [assignLoadedManualChunks]. quiet.
Qed.
#[export] Hint Resolve Quiet_assignLoadedManualChunks : quiet.

Lemma Quiet_assignManualChunksLoop getManualChunk modules :
  Quiet (assignManualChunksLoop getManualChunk modules).
Proof.
  induction modules as [|module rest IH]; [apply Quiet_ret|].
  cbn [assignManualChunksLoop]. quiet.
Qed.
#[export] Hint Resolve Quiet_assignManualChunksLoop : quiet.

Lemma Quiet_assignManualChunks getManualChunk :
  Quiet (assignManualChunks getManualChunk).
Proof. unfold assignManualChunks. quiet. Qed.
#[export] Hint Resolve Quiet_assignManualChunks : quiet.

(** ** The log of calls *)

Lemma loadedIds_snoc log p c : loadedIds (log ++ [(p, c)]) = loadedIds log ++ loadedBy c.
Proof. unfold loadedIds. rewrite omap_app. simpl. by destruct c. Qed.

Lemma callsOf_snoc q log p c :
  callsOf q (log ++ [(p, c)]) = callsOf q log ++ (if bool_decide (p = q) then [c] else []).
Proof. unfold callsOf. rewrite omap_app. simpl. by case_bool_decide. Qed.

Lemma phaseOf_snoc q log p c :
  phaseOf q (log ++ [(p, c)]) =
  if bool_decide (p = q) then advance (phaseOf q log) c else phaseOf q log.
Proof.
  unfold phaseOf. rewrite callsOf_snoc. case_bool_decide.
  - by rewrite foldl_app.
  - by rewrite app_nil_r.
Qed.

Lemma phaseOf_Rely self log st' log' :
  Rely self log st' log' -> phaseOf self log' = phaseOf self log.
Proof. intros [_ Hmine]. unfold phaseOf. by rewrite Hmine. Qed.

Lemma Consistent_snoc st log self c :
  Consistent st log ->
  advance (phaseOf self log) c <> Stuck ->
  (forall id, c = callLoadHook id -> (id ∉ loadedIds log) /\ isInternal st id) ->
  Consistent st (log ++ [(self, c)]).
Proof.
  intros [H1 H2 H3 H4] Hadv Hload. split; auto.
  - rewrite loadedIds_snoc.
    destruct c as [| loaded | | |]; simpl; rewrite ?app_nil_r; auto.
    apply NoDup_app. split_and!; [done| |apply NoDup_singleton].
    intros x Hx ->%list_elem_of_singleton. by destruct (Hload loaded eq_refl).
  - intros i. rewrite loadedIds_snoc. intros [Hi|Hi]%elem_of_app; [by auto|].
    destruct c as [| loaded | | |]; simpl in Hi; try by apply elem_of_nil in Hi.
    apply list_elem_of_singleton in Hi as ->. by destruct (Hload loaded eq_refl).
  - intros p. rewrite phaseOf_snoc. case_bool_decide; [by subst|by auto].
Qed.

Lemma Keeps_awaitExt c : resolves c = true -> Keeps (awaitExt c).
Proof.
  intros Hres self st log Hc.
  assert (Hadv : advance (phaseOf self log) c = phaseOf self log) by by destruct c.
  simpl. split.
  - apply Consistent_snoc; [done| |].
    + rewrite Hadv. apply Hc.
    + intros i ->. done.
  - intros r st' log' HR. split; [apply HR|].
    rewrite (phaseOf_Rely _ _ _ _ HR), phaseOf_snoc, bool_decide_true by done. done.
Qed.

Create HintDb keeps discriminated.

Ltac keeps_step :=
  lazymatch goal with
  | |- Keeps (bind _ _) => apply Keeps_bind; [|intros ?]
  | |- Keeps (await_ _) => apply Keeps_await_
  | |- Keeps (Yield _) => apply Keeps_Yield
  | |- Keeps (spawn _) => apply Keeps_spawn
  | |- Keeps (spawnAll _) => apply Keeps_spawnAll
  | |- Keeps (awaitAll _) => apply Keeps_awaitAll
  | |- Keeps (awaitPromise _) => apply Keeps_awaitPromise
  | |- Keeps (awaitExt _) => apply Keeps_awaitExt; reflexivity
  | |- Keeps (match ?x with _ => _ end) => destruct x
  | |- Keeps _ => first [ solve [eauto with keeps] | apply Quiet_Keeps; solve [quiet] ]
  end.
Ltac keeps := repeat keeps_step.

Lemma Keeps_resolveId host source importer skip :
  Keeps (resolveId host source importer skip).
Proof. unfold resolveId. keeps. Qed.
#[export] Hint Resolve Keeps_resolveId : keeps.

Lemma Keeps_resolveMemoized host module specifier :
  Keeps (resolveMemoized host module specifier).
Proof. unfold resolveMemoized. keeps. Qed.
#[export] Hint Resolve Keeps_resolveMemoized : keeps.

Lemma Keeps_resolveDynamicImport host module specifier importer :
  Keeps (resolveDynamicImport host module specifier importer).
Proof. unfold resolveDynamicImport. keeps. Qed.
#[export] Hint Resolve Keeps_resolveDynamicImport : keeps.

Lemma Keeps_getCombinedPromise : Keeps getCombinedPromise.
Proof. unfold getCombinedPromise. keeps. Qed.
#[export] Hint Resolve Keeps_getCombinedPromise : keeps.

Lemma Keeps_awaitLoadModulesPromise p : Keeps (awaitLoadModulesPromise p).
Proof. unfold awaitLoadModulesPromise. keeps. Qed.
#[export] Hint Resolve Keeps_awaitLoadModulesPromise : keeps.

Lemma Keeps_fetchAllDependencies module : Keeps (fetchAllDependencies module).
Proof. unfold fetchAllDependencies. keeps. Qed.
#[export] Hint Resolve Keeps_fetchAllDependencies : keeps.

Lemma Keeps_thenEntryModules loaded first unresolved isUserDefined :
  Keeps (thenEntryModules loaded first unresolved isUserDefined).
Proof. unfold thenEntryModules. keeps. Qed.

Lemma Keeps_addEntryModules unresolved isUserDefined :
  Keeps (addEntryModules unresolved isUserDefined).
Proof. unfold addEntryModules. keeps. Qed.

Lemma Keeps_thenManualChunks loaded unresolved :
  Keeps (thenManualChunks loaded unresolved).
Proof. unfold thenManualChunks. keeps. Qed.

Lemma Keeps_addManualChunks manualChunks : Keeps (addManualChunks manualChunks).
Proof. unfold addManualChunks. keeps. Qed.

Lemma SafeQ_Quiet_bind {A B} self (m : Async A) (f : A -> Async B) st log Q :
  Quiet m -> Consistent st log ->
  (forall a st', Consistent st' log -> SafeQ self (f a) st' log Q) ->
  SafeQ self (bind m f) st log Q.
Proof.
  intros Hq Hc Hf. apply SafeQ_bind.
  destruct (Hq st) as (st' & r & Hrun & Hshape).
  eapply SafeQ_runSync; [done|].
  destruct r; eauto using Consistent_shape.
Qed.

Lemma Harmless_Quiet_tail {A} self (t : Async A) st log :
  Quiet t -> Consistent st log ->
  SafeQ self t st log (fun _ st' log' => Consistent st' log').
Proof. intros Hq Hc. by apply Quiet_Harmless. Qed.

Lemma SafeQ_awaitExt_bind {B} self c (f : ExtReply -> Async B) st log Q :
  Consistent st (log ++ [(self, c)]) ->
  (forall r st' log', Rely self (log ++ [(self, c)]) st' log' ->
                      SafeQ self (f r) st' log' Q) ->
  SafeQ self (bind (awaitExt c) f) st log Q.
Proof. intros Hc Hf. simpl. eauto. Qed.

Lemma addModuleSource_safe host id importer module self st log :
  Consistent st log -> phaseOf self log = Unloaded ->
  isInternal st id -> id ∉ loadedIds log ->
  SafeQ self (addModuleSource host id importer module) st log
        (fun _ st' log' => Consistent st' log').
Proof.
  intros Hc Hph Hint Hnew. unfold addModuleSource.
  apply SafeQ_awaitExt_bind.
  { apply Consistent_snoc; [done|by rewrite Hph|]. intros i [= <-]. done. }
  intros loaded st1 log1 HR1. cbv beta.
  assert (Hph1 : phaseOf self log1 = Loading id).
  { rewrite (phaseOf_Rely _ _ _ _ HR1), phaseOf_snoc, bool_decide_true, Hph by done. done. }
  destruct HR1 as [Hc1 _].
  lazymatch goal with
  | |- SafeQ _ (bind _ ?rest) _ _ _ =>
      assert (Hrest : forall source st' log', Consistent st' log' ->
                (phaseOf self log' = Loading id \/ phaseOf self log' = Reading id) ->
                SafeQ self (rest source) st' log' (fun _ st'' log'' => Consistent st'' log''))
  end.
  { clear Hc Hph Hint Hnew Hc1 Hph1 loaded. clear st st1 log log1.
    intros source st log Hc Hph.
    assert (Htransform : forall sd st0, Consistent st0 log ->
      SafeQ self
        (reply <- awaitExt (callTransform sd module id) ;;
         match reply with
         | replyTransform info => writeField module (W_source info)
         | replyReject message => error (errRejected message)
         | _ => error (errTypeError "unexpected reply")
         end) st0 log (fun _ st'' log'' => Consistent st'' log'')).
    { intros sd st0 Hc0. apply SafeQ_awaitExt_bind.
      - apply Consistent_snoc; [done| |done].
        destruct Hph as [-> | ->]; simpl; by rewrite bool_decide_true.
      - intros reply st2 log2 [Hc2 _].
        apply Quiet_Harmless; [|done]. quiet. }
    assert (Htransformed : forall sd st0, Consistent st0 log ->
      SafeQ self
        ((match sd_moduleSideEffects sd with
          | Some b => writeField module (W_moduleSideEffects b)
          | None => Ret tt
          end) ;;;
         (match sd_syntheticNamedExports sd with
          | Some b => writeField module (W_syntheticNamedExports b)
          | None => Ret tt
          end) ;;;
         reply <- awaitExt (callTransform sd module id) ;;
         match reply with
         | replyTransform info => writeField module (W_source info)
         | replyReject message => error (errRejected message)
         | _ => error (errTypeError "unexpected reply")
         end) st0 log (fun _ st'' log'' => Consistent st'' log'')).
    { intros sd st0 Hc0.
      apply SafeQ_Quiet_bind; [quiet|done|]. intros _ st2 Hc2.
      apply SafeQ_Quiet_bind; [quiet|done|]. intros _ st3 Hc3.
      by apply Htransform. }
    apply SafeQ_Quiet_bind; [quiet|done|]. intros sd st2 Hc2.
    destruct (cachedModules host !! id) as [cached|]; [|by apply Htransformed].
    destruct (negb (cm_customTransformCache cached)
              && bool_decide (cm_originalCode cached = sd_code sd));
      [|by apply Htransformed].
    apply Quiet_Harmless; [|done]. quiet. }
  apply SafeQ_bind.
  destruct loaded as [r|[code|sd| |]|src|info|message];
    try (apply Hrest; [done|by left]); try done.
  apply SafeQ_awaitExt_bind.
  { apply Consistent_snoc; [done| |done]. rewrite Hph1. simpl. by rewrite bool_decide_true. }
  intros file st2 log2 HR2.
  assert (Hph2 : phaseOf self log2 = Reading id).
  { rewrite (phaseOf_Rely _ _ _ _ HR2), phaseOf_snoc, bool_decide_true, Hph1 by done.
    simpl. by rewrite bool_decide_true. }
  destruct HR2 as [Hc2 _].
  destruct file; try done. apply Hrest; [done|by right].
Qed.

(** ** The registry *)

Lemma mapGet_mapSet_eq {V} k (v : V) m : mapGet k (mapSet k v m) = Some v.
Proof.
  induction m as [|[k' v'] m IH]; simpl.
  - by rewrite bool_decide_true.
  - case_bool_decide; simpl; [by rewrite bool_decide_true|].
    by rewrite bool_decide_false.
Qed.

Lemma mapGet_mapSet_ne {V} k k' (v : V) m :
  k ≠ k' -> mapGet k' (mapSet k v m) = mapGet k' m.
Proof.
  intros Hne. induction m as [|[k0 v0] m IH]; simpl.
  - by rewrite bool_decide_false.
  - case_bool_decide; simpl.
    + subst. by rewrite !bool_decide_false.
    + by rewrite IH.
Qed.

Lemma SafeQ_get_bind {B} self (f : Loader -> Async B) st log Q :
  SafeQ self (f st) st log Q -> SafeQ self (bind get f) st log Q.
Proof. done. Qed.

Lemma SafeQ_modify_bind {B} self g (f : unit -> Async B) st log Q :
  SafeQ self (f tt) (g st) log Q -> SafeQ self (bind (modify g) f) st log Q.
Proof. done. Qed.

Lemma SafeQ_alloc_bind {B} self o (f : nat -> Async B) st log Q :
  SafeQ self (f (length (heap st))) (set_heap (fun h => h ++ [o]) st) log Q ->
  SafeQ self (bind (alloc o) f) st log Q.
Proof. done. Qed.

(** Registering a new internal module under an id that has none. *)
Lemma Consistent_register_module st log id m :
  Consistent st log -> ~ isInternal st id -> m_id m = id ->
  let st' := set_modulesById (mapSet id (length (heap st)))
               (set_heap (fun h => h ++ [OModule m]) st) in
  Consistent st' log /\ isInternal st' id.
Proof.
  intros [H1 H2 H3 H4] Hnot Hid. simpl. split; [split; auto|].
  - intros i Hi. destruct (H2 i Hi) as (r & m' & Hr & Hm).
    assert (id ≠ i) by (intros ->; apply Hnot; by exists r, m').
    exists r, m'. simpl. rewrite mapGet_mapSet_ne by done.
    split; [done|]. rewrite lookup_app_l; [done|]. by eapply lookup_lt_Some.
  - simpl. intros r m' Hr.
    destruct (decide (r < length (heap st))) as [Hlt|Hge].
    + rewrite lookup_app_l in Hr by done.
      assert (id ≠ m_id m').
      { intros ->. apply Hnot. exists r, m'. eauto. }
      rewrite mapGet_mapSet_ne by done. eauto.
    + rewrite lookup_app_r in Hr by lia.
      destruct (r - length (heap st)) as [|n] eqn:Hn; simplify_eq/=.
      assert (r = length (heap st)) as -> by lia.
      apply mapGet_mapSet_eq.
  - exists (length (heap st)), m. simpl. rewrite mapGet_mapSet_eq.
    split; [done|]. rewrite lookup_app_r by lia. by rewrite Nat.sub_diag.
Qed.

(** Registering a new external module under an id the registry lacks. *)
Lemma Consistent_register_external st log id x :
  Consistent st log -> mapGet id (modulesById st) = None ->
  Consistent (set_modulesById (mapSet id (length (heap st)))
                (set_heap (fun h => h ++ [OExternal x]) st)) log.
Proof.
  intros [H1 H2 H3 H4] Hnone. split; auto.
  - intros i Hi. destruct (H2 i Hi) as (r & m' & Hr & Hm).
    assert (id ≠ i) by (intros ->; congruence).
    exists r, m'. simpl. rewrite mapGet_mapSet_ne by done.
    split; [done|]. rewrite lookup_app_l; [done|]. by eapply lookup_lt_Some.
  - simpl. intros r m' Hr.
    destruct (decide (r < length (heap st))) as [Hlt|Hge].
    + rewrite lookup_app_l in Hr by done.
      assert (id ≠ m_id m').
      { intros ->. apply H3 in Hr. congruence. }
      rewrite mapGet_mapSet_ne by done. eauto.
    + rewrite lookup_app_r in Hr by lia.
      destruct (r - length (heap st)) as [|n] eqn:Hn; simplify_eq/=.
Qed.

Lemma Consistent_set_watchFiles f st log :
  Consistent st log -> Consistent (set_watchFiles f st) log.
Proof. by apply Consistent_shape. Qed.

Lemma Harmless_fetch_tail module :
  Harmless (fetchAllDependencies module ;;; linkModule module ;;; Ret module).
Proof.
  apply Harmless_bind; [apply Keeps_Harmless, Keeps_fetchAllDependencies|].
  intros _. apply Quiet_Harmless. quiet.
Qed.

Lemma LoadSafe_fetchModule host id importer moduleSideEffects syntheticNamedExports isEntry :
  LoadSafe (fetchModule host id importer moduleSideEffects syntheticNamedExports isEntry).
Proof.
  intros self st log Hc Hph. unfold fetchModule.
  apply SafeQ_get_bind. cbv beta zeta.
  lazymatch goal with
  | |- SafeQ _ (match ?x with _ => _ end) _ _ _ =>
      destruct x as [[existing m]|] eqn:Hexisting
  end.
  { apply Quiet_Harmless; [quiet|done]. }
  assert (Hnot : ~ isInternal st id).
  { intros (r & m & Hr & Hm). unfold existingModule in Hexisting.
    rewrite Hr in Hexisting. simpl in Hexisting. by rewrite Hm in Hexisting. }
  apply SafeQ_alloc_bind, SafeQ_modify_bind, SafeQ_modify_bind.
  destruct (Consistent_register_module st log id
              (newModule id moduleSideEffects syntheticNamedExports isEntry)
              Hc Hnot eq_refl) as [Hc1 Hint1].
  apply SafeQ_bind. unfold await_. apply SafeQ_bind.
  eapply SafeQ_mono; [|apply addModuleSource_safe].
  - intros [] st2 log2 Hc2. simpl. split; [done|].
    intros st3 log3 [Hc3 _]. by apply Harmless_fetch_tail.
  - by apply Consistent_set_watchFiles.
  - done.
  - destruct Hint1 as (r & m & Hr & Hm). by exists r, m.
  - intros Hin. apply Hnot. by apply Hc.
Qed.

Lemma Harmless_fetchExternal source importer resolvedId :
  Harmless
    (st <- get ;;
     (if negb (mapHas (rid_id resolvedId) (modulesById st))
      then x <- alloc (OExternal (newExternalModule (rid_id resolvedId)
                                    (rid_moduleSideEffects resolvedId))) ;;
           modify (set_modulesById (mapSet (rid_id resolvedId) x))
      else Ret tt) ;;;
     st' <- get ;;
     match r ← mapGet (rid_id resolvedId) (modulesById st');
           heap st' !! r ≫= (fun o => Some (r, o)) with
     | Some (externalModule, OExternal _) => Ret externalModule
     | _ => error (errInternalIdCannotBeExternal source importer)
     end).
Proof.
  intros self st log Hc. apply SafeQ_get_bind.
  assert (Htail : forall st', Consistent st' log ->
    SafeQ self
      (st' <- get ;;
       match r ← mapGet (rid_id resolvedId) (modulesById st');
             heap st' !! r ≫= (fun o => Some (r, o)) with
       | Some (externalModule, OExternal _) => Ret externalModule
       | _ => error (errInternalIdCannotBeExternal source importer)
       end) st' log (fun _ st'' log'' => Consistent st'' log'')).
  { intros st' Hc'. apply Quiet_Harmless; [quiet|done]. }
  unfold mapHas. destruct (mapGet (rid_id resolvedId) (modulesById st)) eqn:Hget; simpl negb; cbv iota.
  - apply SafeQ_bind. exact (Htail st Hc).
  - apply SafeQ_bind, SafeQ_alloc_bind.
    exact (Htail _ (Consistent_register_external st log _ _ Hc Hget)).
Qed.

Lemma LoadSafe_fetchResolvedDependency host source importer resolvedId :
  LoadSafe (fetchResolvedDependency host source importer resolvedId).
Proof.
  unfold fetchResolvedDependency. destruct (rid_external resolvedId).
  - apply Harmless_LoadSafe, Harmless_fetchExternal.
  - apply LoadSafe_fetchModule.
Qed.

Lemma LoadSafe_Yield {A} (k : Async A) : Harmless k -> Harmless (Yield k).
Proof. apply Harmless_Yield. Qed.

Lemma LoadSafe_await_then {A B} (m : Async A) (f : A -> Async B) :
  LoadSafe m -> (forall a, Harmless (f a)) -> LoadSafe (a <- await_ m ;; f a).
Proof.
  intros Hm Hf. apply LoadSafe_bind_Harmless; [|done].
  unfold await_. apply LoadSafe_bind_Harmless; [done|].
  intros a. apply Harmless_Yield, Quiet_Harmless, Quiet_ret.
Qed.

Lemma LoadSafe_staticDependency host module source :
  LoadSafe (staticDependency host module source).
Proof.
  unfold staticDependency.
  apply LoadSafe_bind_Keeps; [apply Quiet_Keeps; quiet|]. intros m.
  apply LoadSafe_bind_Keeps; [apply Keeps_resolveMemoized|]. intros resolvedId.
  apply LoadSafe_await_then; [apply LoadSafe_fetchResolvedDependency|].
  intros resolution. apply Quiet_Harmless. quiet.
Qed.

Lemma LoadSafe_dynamicDependency host module index :
  LoadSafe (dynamicDependency host module index).
Proof.
  unfold dynamicDependency.
  apply LoadSafe_bind_Keeps; [apply Quiet_Keeps; quiet|]. intros m.
  destruct (m_dynamicImports m !! index) as [dynamicImport|];
    [|apply Harmless_LoadSafe, Quiet_Harmless, Quiet_ret].
  apply LoadSafe_bind_Keeps; [keeps|]. intros [|s|resolvedId].
  - apply Harmless_LoadSafe, Quiet_Harmless, Quiet_ret.
  - apply Harmless_LoadSafe, Quiet_Harmless. quiet.
  - apply LoadSafe_await_then; [apply LoadSafe_fetchResolvedDependency|].
    intros resolution. apply Quiet_Harmless. quiet.
Qed.

Lemma LoadSafe_loadEntryModule host unresolvedId isEntry importer :
  LoadSafe (loadEntryModule host unresolvedId isEntry importer).
Proof.
  unfold loadEntryModule.
  apply LoadSafe_bind_Keeps; [keeps|]. intros reply.
  apply LoadSafe_bind_Keeps; [keeps|]. intros [id| | |o].
  - apply LoadSafe_fetchModule.
  - apply Harmless_LoadSafe, Quiet_Harmless, Quiet_throw.
  - apply Harmless_LoadSafe, Quiet_Harmless, Quiet_throw.
  - destruct (pr_external o).
    + apply Harmless_LoadSafe, Quiet_Harmless, Quiet_throw.
    + apply LoadSafe_fetchModule.
Qed.

Lemma LoadSafe_body host c : LoadSafe (body host c).
Proof.
  destruct c; cbn [body].
  - apply Harmless_LoadSafe, Keeps_Harmless. keeps.
  - apply LoadSafe_bind_Harmless; [apply LoadSafe_loadEntryModule|].
    intros. apply Quiet_Harmless, Quiet_ret.
  - apply LoadSafe_staticDependency.
  - apply LoadSafe_dynamicDependency.
  - apply Harmless_LoadSafe, Keeps_Harmless, Keeps_thenEntryModules.
  - apply Harmless_LoadSafe, Keeps_Harmless, Keeps_thenManualChunks.
  - apply Harmless_LoadSafe, Keeps_Harmless, Keeps_getCombinedPromise.
  - apply Harmless_LoadSafe, Keeps_Harmless, Keeps_addEntryModules.
  - apply Harmless_LoadSafe, Keeps_Harmless, Keeps_addManualChunks.
  - apply Harmless_LoadSafe, Quiet_Harmless, Quiet_assignManualChunks.
  - apply Harmless_LoadSafe, Keeps_Harmless. keeps.
Qed.

(** ** Turns keep the invariant *)

Section Turns.
Context (host : Host).

Lemma turn_Ret fuel self v w : turn host fuel self (Ret v) w = Some (w, TDone v).
Proof. by destruct fuel. Qed.
Lemma turn_Throw fuel self e w : turn host fuel self (Throw e) w = Some (w, TFailed e).
Proof. by destruct fuel. Qed.
Lemma turn_Get fuel self k w :
  turn host fuel self (Get k) w = turn host fuel self (k (loader w)) w.
Proof. by destruct fuel. Qed.
Lemma turn_Put fuel self s k w :
  turn host fuel self (Put s k) w = turn host fuel self k (withLoader s w).
Proof. by destruct fuel. Qed.
Lemma turn_Yield fuel self k w : turn host fuel self (Yield k) w = Some (w, TYield k).
Proof. by destruct fuel. Qed.
Lemma turn_AwaitExt fuel self c k w :
  turn host fuel self (AwaitExt c k) w = Some (logCall self c w, TExt c k).
Proof. by destruct fuel. Qed.
Lemma turn_AwaitAll fuel self ps k w :
  turn host fuel self (AwaitAll ps k) w = Some (w, TJoin ps k).
Proof. by destruct fuel. Qed.
Lemma turn_Spawn_0 self c k w : turn host 0 self (Spawn c k) w = None.
Proof. done. Qed.
Lemma turn_Spawn_S fuel self c k w :
  turn host (S fuel) self (Spawn c k) w =
  match turn host fuel (length (pool w)) (body host c)
          {| loader := loader w; pool := pool w ++ [TStarting]; calls := calls w |} with
  | Some (w1, task) =>
      turn host (S fuel) self (k (length (pool w))) (setTask (length (pool w)) task w1)
  | None => None
  end.
Proof. done. Qed.

Lemma callsOf_fresh p log n :
  (forall entry, entry ∈ log -> entry.1 < n) -> n <= p -> callsOf p log = [].
Proof.
  intros Hb Hp. induction log as [|[q c] log IH]; [done|].
  unfold callsOf in *. simpl. rewrite bool_decide_false.
  - apply IH. intros e He. apply Hb. by right.
  - specialize (Hb (q, c)). simpl in Hb. intros ->.
    assert (p < n) by (apply Hb; by left). lia.
Qed.

Lemma turn_ok_ext self c (k : ExtReply -> Async Value) w busy :
  Consistent (loader w) (calls w ++ [(self, c)]) ->
  (forall r st' log', Rely self (calls w ++ [(self, c)]) st' log' ->
                      Safe self (k r) st' log') ->
  self < length (pool w) -> self ∈ busy ->
  tagsBounded w -> othersOK busy w ->
  let w' := logCall self c w in
  Consistent (loader w') (calls w')
  /\ TaskOK self (callsOf self (calls w')) (TExt c k)
  /\ length (pool w) <= length (pool w')
  /\ tagsBounded w'
  /\ othersOK busy w'
  /\ (forall p, p ≠ self -> p < length (pool w) ->
                callsOf p (calls w') = callsOf p (calls w)).
Proof.
  intros Hc Hk Hself Hbusy Htags Hothers. simpl. split_and!; try done.
  - intros r st' log' Hc' Hmine. by apply Hk.
  - intros entry [He|He]%elem_of_app; [by apply Htags|].
    apply list_elem_of_singleton in He as ->. done.
  - intros p task Hp Htask. simpl in *.
    rewrite callsOf_snoc, bool_decide_false, app_nil_r by (intros ->; done).
    by apply Hothers.
  - intros p Hp _. by rewrite callsOf_snoc, bool_decide_false, app_nil_r.
Qed.

Lemma turn_ok fuel : forall self t w busy w' task,
  turn host fuel self t w = Some (w', task) ->
  Safe self t (loader w) (calls w) ->
  self < length (pool w) -> self ∈ busy ->
  tagsBounded w -> othersOK busy w ->
  Consistent (loader w') (calls w')
  /\ TaskOK self (callsOf self (calls w')) task
  /\ length (pool w) <= length (pool w')
  /\ tagsBounded w'
  /\ othersOK busy w'
  /\ (forall p, p ≠ self -> p < length (pool w) ->
                callsOf p (calls w') = callsOf p (calls w)).
Proof.
  induction fuel as [|fuel IHfuel].
  all: intros self t; induction t as [v|e|k IH|s k IH|k IH|c k IH|c k IH|ps k IH];
    intros w busy w' task Hturn Hsafe Hself Hbusy Htags Hothers.
  all: try (rewrite turn_Ret in Hturn; simplify_eq; by split_and!).
  all: try (rewrite turn_Throw in Hturn; simplify_eq; by split_and!).
  all: try (rewrite turn_Get in Hturn; by eapply IH).
  all: try (rewrite turn_Put in Hturn; by eapply (IH (withLoader s w))).
  all: try (rewrite turn_Yield in Hturn; simplify_eq; destruct Hsafe as [Hc Hk];
            split_and!; try done; intros st' log' Hc' Hmine; by apply Hk).
  all: try (rewrite turn_AwaitAll in Hturn; simplify_eq; destruct Hsafe as [Hc Hk];
            split_and!; try done; intros vs st' log' Hc' Hmine; by apply Hk).
  all: try (rewrite turn_AwaitExt in Hturn; simplify_eq; destruct Hsafe as [Hc Hk];
            by apply turn_ok_ext).
  - by rewrite turn_Spawn_0 in Hturn.
  - rewrite turn_Spawn_S in Hturn.
    set (child := length (pool w)) in *.
    set (w0 := {| loader := loader w; pool := pool w ++ [TStarting]; calls := calls w |}) in *.
    destruct (turn host fuel child (body host c) w0) as [[w1 ctask]|] eqn:Hchild;
      [|done].
    destruct Hsafe as [Hc Hk].
    assert (Hchild_mine : callsOf child (calls w) = []).
    { eapply callsOf_fresh; [apply Htags|done]. }
    destruct (IHfuel child (body host c) w0 (child :: busy) w1 ctask Hchild)
      as (Hc1 & Hctask & Hlen1 & Htags1 & Hothers1 & Hframe1).
    { apply LoadSafe_body; [done|]. unfold phaseOf. simpl. by rewrite Hchild_mine. }
    { unfold w0. simpl. rewrite length_app. simpl. lia. }
    { by left. }
    { intros entry He. unfold w0. simpl. rewrite length_app. simpl.
      specialize (Htags entry He). lia. }
    { intros p ptask Hp Hptask. unfold w0 in *. simpl in *.
      apply not_elem_of_cons in Hp as [Hpc Hpb].
      apply Hothers; [done|].
      rewrite lookup_app_l in Hptask; [done|].
      apply lookup_lt_Some in Hptask. rewrite length_app in Hptask. simpl in Hptask.
      unfold child in Hpc. lia. }
    assert (Hlen0 : length (pool w0) = S child).
    { unfold w0. simpl. rewrite length_app. simpl. lia. }
    assert (Hself_ne : self ≠ child) by (unfold child; lia).
    destruct (IH child (setTask child ctask w1) busy w' task Hturn)
      as (Hc' & Htask' & Hlen' & Htags' & Hothers' & Hframe').
    { apply Hk. split; [done|]. simpl. apply Hframe1; [done|]. lia. }
    { simpl. rewrite length_insert. lia. }
    { done. }
    { intros entry He. simpl in *. rewrite length_insert. by apply Htags1. }
    { intros p ptask Hp Hptask. simpl in *.
      destruct (decide (p = child)) as [->|Hpc].
      - rewrite list_lookup_insert_eq in Hptask by lia. by simplify_eq.
      - rewrite list_lookup_insert_ne in Hptask by done.
        apply Hothers1; [|done]. by apply not_elem_of_cons. }
    split_and!; try done.
    + simpl in Hlen'. rewrite length_insert in Hlen'. lia.
    + intros p Hp Hlt. rewrite Hframe'; simpl; [|done|rewrite length_insert; lia].
      apply Hframe1; [unfold child; lia|lia].
Qed.
End Turns.

Section Runs.
Context (host : Host).

Lemma runTurn_ok self t w w' :
  runTurn host self t w = Some w' ->
  Safe self t (loader w) (calls w) ->
  self < length (pool w) ->
  tagsBounded w -> othersOK [self] w ->
  WorldOK w'.
Proof.
  unfold runTurn. intros Hrun Hsafe Hself Htags Hothers.
  destruct (turn host fuelPerTurn self t w) as [[w1 task]|] eqn:Hturn; simplify_eq/=.
  destruct (turn_ok host _ _ _ _ [self] _ _ Hturn Hsafe Hself) as
    (Hc & Htask & Hlen & Htags1 & Hothers1 & _); [by left|done|done|].
  split; simpl.
  - done.
  - intros entry He. rewrite length_insert. by apply Htags1.
  - intros p ptask Hp. destruct (decide (p = self)) as [->|Hne].
    + rewrite list_lookup_insert_eq in Hp by lia. by simplify_eq.
    + rewrite list_lookup_insert_ne in Hp by done.
      apply Hothers1; [|done]. by intros ->%list_elem_of_singleton.
Qed.

Lemma step_ok ch w w' : WorldOK w -> step host ch w = Some w' -> WorldOK w'.
Proof.
  intros [Hc Htags Htasks] Hstep. destruct ch as [c|p reply]; simpl in Hstep.
  - destruct (isPublic c); [|done].
    eapply runTurn_ok; [done| | | |]; simpl.
    + apply LoadSafe_body; [done|]. unfold phaseOf.
      by rewrite (callsOf_fresh _ _ (length (pool w))).
    + rewrite length_app. simpl. lia.
    + intros entry He. simpl. rewrite length_app. simpl. specialize (Htags _ He). lia.
    + intros q task Hq Hlookup. simpl in *.
      apply not_elem_of_cons in Hq as [Hq _].
      apply Htasks. rewrite lookup_app_l in Hlookup; [done|].
      apply lookup_lt_Some in Hlookup. rewrite length_app in Hlookup.
      simpl in Hlookup. lia.
  - destruct (pool w !! p) as [task|] eqn:Hp; [|done].
    assert (Hlt : p < length (pool w)) by by eapply lookup_lt_Some.
    assert (Hothers : othersOK [p] w).
    { intros q qtask _ Hq. by apply Htasks. }
    specialize (Htasks _ _ Hp).
    destruct task as [|k|c k|ps k|v|e], reply as [r|]; try done.
    + eapply runTurn_ok; [done|by apply Htasks|done|done|done].
    + destruct (replyFits c r); [|done].
      eapply runTurn_ok; [done|by apply Htasks|done|done|done].
    + destruct (settled (pool w) ps) as [[e|vs]|]; [| |done].
      * simplify_eq. split; simpl; [done| |].
        -- intros entry He. rewrite length_insert. by apply Htags.
        -- intros q qtask Hq. destruct (decide (q = p)) as [->|Hne].
           ++ rewrite list_lookup_insert_eq in Hq by lia. by simplify_eq.
           ++ rewrite list_lookup_insert_ne in Hq by done. apply Hothers; [|done].
              by intros ->%list_elem_of_singleton.
      * eapply runTurn_ok; [done|by apply Htasks|done|done|done].
Qed.

Lemma run_ok schedule w w' : WorldOK w -> run host schedule w = Some w' -> WorldOK w'.
Proof.
  revert w. induction schedule as [|ch rest IH]; intros w Hw Hrun; simpl in Hrun.
  - by simplify_eq.
  - destruct (step host ch w) as [w1|] eqn:Hstep; [|done].
    eapply IH; [|done]. by eapply step_ok.
Qed.

Lemma initialWorld_ok : WorldOK (initialWorld host).
Proof.
  split; simpl.
  - split; simpl.
    + apply NoDup_nil_2.
    + intros i Hi. by apply elem_of_nil in Hi.
    + intros r m Hr. by rewrite lookup_nil in Hr.
    + done.
  - intros entry He. by apply elem_of_nil in He.
  - intros [|p] task Hp; simplify_eq/=; done.
Qed.

Lemma reachable_ok schedule w :
  run host schedule (initialWorld host) = Some w -> WorldOK w.
Proof. apply run_ok, initialWorld_ok. Qed.
End Runs.

(** ** At most one load, read and transform for each id *)

Lemma count_cons P c l : count P (c :: l) = (if P c then 1 else 0) + count P l.
Proof.
  unfold count. rewrite filter_cons. destruct (P c) eqn:Hc.
  - by rewrite decide_True.
  - by rewrite decide_False by congruence.
Qed.

Lemma foldl_advance_Stuck l : foldl advance Stuck l = Stuck.
Proof. induction l as [|c l IH]; [done|]. simpl. by destruct c. Qed.

Lemma advance_not_Stuck ph c l : foldl advance (advance ph c) l <> Stuck -> advance ph c <> Stuck.
Proof. intros H Heq. rewrite Heq in H. by rewrite foldl_advance_Stuck in H. Qed.

Lemma phase_budget id l : forall ph,
  foldl advance ph l <> Stuck ->
  count (isReadOf id) l <= readsLeft id ph + count (isLoadOf id) l
  /\ count (isTransformOf id) l <= transformsLeft id ph + count (isLoadOf id) l.
Proof.
  induction l as [|c l IH]; intros ph Hok; [unfold count; simpl; lia|].
  simpl in Hok. pose proof (advance_not_Stuck _ _ _ Hok) as Hadv.
  destruct (IH _ Hok) as [IHr IHt]. rewrite !count_cons.
  destruct c as [| loaded | read | sd module transformed |], ph as [|i|i|i|];
    simpl in *; try done; repeat case_bool_decide; simplify_eq/=; try done;
    repeat case_bool_decide; try done; lia.
Qed.

Lemma countCalls_split P p log :
  countCalls P log
  = count P (callsOf p log) + countCalls P (filter (fun entry => entry.1 ≠ p) log).
Proof.
  unfold countCalls, count, callsOf.
  induction log as [|[q c] log IH]; [done|].
  rewrite (filter_cons (fun entry : nat * ExtCall => entry.1 ≠ p)).
  rewrite (filter_cons (fun entry : nat * ExtCall => P entry.2 = true) (q, c) log).
  cbn [omap list_omap fst snd].
  destruct (decide (q = p)) as [->|Hne].
  - rewrite bool_decide_true by done. rewrite (decide_False (P:=p ≠ p)) by auto.
    rewrite filter_cons. destruct (decide (P c = true)); simpl; lia.
  - rewrite bool_decide_false by done. rewrite (decide_True (P:=q ≠ p)) by auto.
    rewrite filter_cons. simpl. destruct (decide (P c = true)); simpl; lia.
Qed.

Lemma callsOf_cons q r c log :
  callsOf q ((r, c) :: log) = (if bool_decide (r = q) then [c] else []) ++ callsOf q log.
Proof. unfold callsOf. simpl. by case_bool_decide. Qed.

Lemma callsOf_filter_ne p q log :
  q ≠ p -> callsOf q (filter (fun entry => entry.1 ≠ p) log) = callsOf q log.
Proof.
  intros Hne. induction log as [|[r c] log IH]; [done|].
  rewrite filter_cons. destruct (decide ((r, c).1 ≠ p)) as [Hr|Hr]; simpl in Hr.
  - by rewrite !callsOf_cons, IH.
  - apply dec_stable in Hr as ->. rewrite callsOf_cons, bool_decide_false by done.
    done.
Qed.

Lemma callsOf_filter_eq p log :
  callsOf p (filter (fun entry => entry.1 ≠ p) log) = [].
Proof.
  induction log as [|[r c] log IH]; [done|].
  rewrite filter_cons. destruct (decide ((r, c).1 ≠ p)) as [Hr|Hr]; simpl in Hr; [|done].
  by rewrite callsOf_cons, bool_decide_false, IH.
Qed.

Lemma countCalls_le P L log :
  (forall p, count P (callsOf p log) <= count L (callsOf p log)) ->
  countCalls P log <= countCalls L log.
Proof.
  remember (length log) as n eqn:Hn. revert log Hn.
  induction n as [n IH] using lt_wf_ind. intros log -> Hle.
  destruct log as [|[p c] log]; [done|].
  rewrite (countCalls_split P p), (countCalls_split L p).
  specialize (Hle p) as Hp.
  assert (countCalls P (filter (fun entry => entry.1 ≠ p) ((p, c) :: log))
          <= countCalls L (filter (fun entry => entry.1 ≠ p) ((p, c) :: log))); [|lia].
  eapply IH; [|done|].
  - rewrite filter_cons. simpl. rewrite decide_False by auto.
    pose proof (length_filter (fun entry : nat * ExtCall => entry.1 ≠ p) log). lia.
  - intros q. destruct (decide (q = p)) as [->|Hne].
    + by rewrite callsOf_filter_eq.
    + rewrite callsOf_filter_ne by done. apply Hle.
Qed.

Lemma loadedIds_cons p c log : loadedIds ((p, c) :: log) = loadedBy c ++ loadedIds log.
Proof. unfold loadedIds. simpl. by destruct c. Qed.

Lemma countCalls_cons P p c log :
  countCalls P ((p, c) :: log) = (if P c then 1 else 0) + countCalls P log.
Proof.
  unfold countCalls. rewrite filter_cons. simpl. destruct (P c).
  - by rewrite decide_True.
  - by rewrite decide_False.
Qed.

Lemma countCalls_load_absent id log :
  id ∉ loadedIds log -> countCalls (isLoadOf id) log = 0.
Proof.
  induction log as [|[p c] log IH]; [done|].
  rewrite loadedIds_cons, countCalls_cons. intros Hnot.
  apply not_elem_of_app in Hnot as [Hc Hlog]. rewrite IH by done.
  destruct c as [| loaded | | |]; simpl in *; try done.
  apply not_elem_of_cons in Hc as [Hne _]. by rewrite bool_decide_false.
Qed.

Lemma countCalls_load_NoDup id log :
  NoDup (loadedIds log) -> countCalls (isLoadOf id) log <= 1.
Proof.
  induction log as [|[p c] log IH]; [unfold countCalls; simpl; lia|].
  rewrite loadedIds_cons, countCalls_cons. intros Hnd.
  destruct c as [| loaded | | |]; simpl in *; try by apply IH.
  apply NoDup_cons in Hnd as [Hnotin Hnd]. case_bool_decide; [|by apply IH].
  subst. rewrite countCalls_load_absent by done. lia.
Qed.

Lemma Consistent_counts st log id :
  Consistent st log ->
  countCalls (isLoadOf id) log <= 1
  /\ countCalls (isReadOf id) log <= 1
  /\ countCalls (isTransformOf id) log <= 1.
Proof.
  intros Hc. pose proof (countCalls_load_NoDup id log (loads_once _ _ Hc)) as Hload.
  assert (Hphase : forall p,
    count (isReadOf id) (callsOf p log) <= count (isLoadOf id) (callsOf p log)
    /\ count (isTransformOf id) (callsOf p log) <= count (isLoadOf id) (callsOf p log)).
  { intros p. apply (phase_budget id (callsOf p log) Unloaded), (phases_ok _ _ Hc). }
  split_and!; [done| |].
  - etrans; [|exact Hload]. apply countCalls_le. intros p. apply Hphase.
  - etrans; [|exact Hload]. apply countCalls_le. intros p. apply Hphase.
Qed.

(** ** Reading a module of the heap *)

Lemma runSync_readModule st r m :
  heap st !! r = Some (OModule m) -> runSync (readModule r) st = Some (st, inr m).
Proof. intros Hm. unfold readModule. simpl. by rewrite Hm. Qed.

(** The world a schedule leaves, when the run accepts the schedule. *)
Lemma worldAfter_run schedule :
  bool_decide (is_Some (run exampleHost schedule (initialWorld exampleHost))) = true ->
  run exampleHost schedule (initialWorld exampleHost) = Some (worldAfter schedule).
Proof. unfold worldAfter. by intros [w ->]%bool_decide_eq_true. Qed.

(** ** Synthetic ids *)

(** C9: ids that begin with the NUL character never reach user callables.
    For such an id the matcher that [getIdMatcher] compiles from a user
    callable answers [false], and the policy that [getHasModuleSideEffects]
    derives from a user callable answers [true]; neither invokes the
    callable, as the empty list of events shows (a callable that ran would
    have its events there).  The same holds of the loader's own [isExternal]
    and [hasModuleSideEffects] when the options are callables. *)
Theorem synthetic_ids_never_reach_user_callables
    (T : Type) (host : Host)
    (userExternal : string -> T -> Traced UserBool)
    (userSideEffects : string -> bool -> Traced UserBool)
    (pure : PureModulesOption) (id : string) (args : T) (isExternalModule : bool) :
  startsWithNul id = true ->
  getIdMatcher (OptFn userExternal) id args = (false, [])
  /\ fst (getHasModuleSideEffects (MSEFn userSideEffects) pure) id isExternalModule
     = (true, [])
  /\ (forall f importer isResolved,
        external host = OptFn f ->
        isExternal host id (importer, isResolved) = (false, []))
  /\ (forall g, moduleSideEffects host = MSEFn g ->
        hasModuleSideEffects host id isExternalModule = (true, [])).
Proof.
  intros Hnul. repeat split.
  - simpl. by rewrite Hnul.
  - simpl. by rewrite Hnul.
  - intros f importer isResolved Hf. unfold isExternal. rewrite Hf. simpl.
    by rewrite Hnul.
  - intros g Hg. unfold hasModuleSideEffects. rewrite Hg. simpl. by rewrite Hnul.
Qed.

(** The callables of [recordingHost] record every invocation, and none is
    recorded for [syntheticId]. *)
Lemma synthetic_ids_never_reach_user_callables_witness :
  startsWithNul syntheticId = true
  /\ getIdMatcher (OptFn recordingExternal) syntheticId (None, false) = (false, [])
  /\ fst (getHasModuleSideEffects (MSEFn recordingSideEffects) (OptBool false))
         syntheticId false = (true, [])
  /\ isExternal recordingHost syntheticId (None, false) = (false, [])
  /\ hasModuleSideEffects recordingHost syntheticId false = (true, []).
Proof.
  assert (Hnul : startsWithNul syntheticId = true) by reflexivity.
  destruct (synthetic_ids_never_reach_user_callables
              _ recordingHost recordingExternal recordingSideEffects (OptBool false)
              syntheticId (None, false) false Hnul) as (H1 & H2 & H3 & H4).
  repeat apply conj; [exact Hnul|exact H1|exact H2| |].
  - exact (H3 recordingExternal None false eq_refl).
  - exact (H4 recordingSideEffects eq_refl).
Defined.

(** ** Unresolved imports and manual chunk aliases *)

(** C3: [handleResolveId].  Without a resolution a relative specifier is the
    fatal error [UNRESOLVED_IMPORT] and leaves the loader as it is; any other
    specifier gives the warning [UNRESOLVED_IMPORT_TREATED_AS_EXTERNAL] and
    the result [{external: true, id: source, moduleSideEffects:
    hasModuleSideEffects(source, true), syntheticNamedExports: false}].  A
    resolution is returned as it is, with the warning
    [EXTERNAL_SYNTHETIC_EXPORTS] when it is external with
    [syntheticNamedExports]. *)
Theorem handleResolveId_unresolved_policy
    (host : Host) (resolved : option ResolvedId) (source importer : string) (st : Loader) :
  runSync (handleResolveId host resolved source importer) st =
  match resolved with
  | None =>
      if isRelative host source
      then Some (st, inl (errUnresolvedImport source importer))
      else
        let sideEffects := hasModuleSideEffects host source true in
        Some (emit (snd sideEffects)
                (add_trace [EvWarn (errUnresolvedImportTreatedAsExternal source importer)] st),
              inr {| rid_external := true; rid_id := source;
                     rid_moduleSideEffects := fst sideEffects;
                     rid_syntheticNamedExports := false |})
  | Some resolvedId =>
      Some (if rid_external resolvedId && rid_syntheticNamedExports resolvedId
            then add_trace [EvWarn (errExternalSyntheticExports source importer)] st
            else st,
            inr resolvedId)
  end
  /\ code (errUnresolvedImport source importer) = "UNRESOLVED_IMPORT"
  /\ code (errUnresolvedImportTreatedAsExternal source importer)
     = "UNRESOLVED_IMPORT_TREATED_AS_EXTERNAL"
  /\ code (errExternalSyntheticExports source importer) = "EXTERNAL_SYNTHETIC_EXPORTS".
Proof.
  split; [|done].
  destruct resolved as [r|]; simpl.
  - by destruct (rid_external r && rid_syntheticNamedExports r).
  - by destruct (isRelative host source).
Qed.



(** ** Two runs in which the registry and the memo change *)

(** C2: the registry does not keep one instance per id.  [main] imports [a]
    and [b]; [a] is resolved to [/shared] as external, which registers an
    external module (object [1]) under [/shared]; [b] is then resolved to
    [/shared] as internal: [fetchModule] finds no internal module under the
    id, creates one (object [2]) and stores it under [/shared], so the
    registry entry of the id now names another instance. *)
Theorem external_id_refetched_as_internal_replaces_instance :
  registryAfter sharedAsExternal
  = Some ([("/main", 0); ("/shared", 1)], [(true, "/main"); (false, "/shared")])
  /\ registryAfter sharedThenInternal
     = Some ([("/main", 0); ("/shared", 2)],
             [(true, "/main"); (false, "/shared"); (true, "/shared")]).
Proof. split; vm_compute; reflexivity. Qed.

(** C4: a memo entry is written twice.  [main] has [import 'dep'] and
    [import('dep')].  Both paths find [resolvedIds['dep']] unset and ask the
    resolver (two calls for the one specifier); the dynamic path is answered
    first and stores [/a/x]; the static path is answered next and stores
    [/a/y] over it. *)
Theorem memo_rewritten_by_concurrent_paths :
  memoAfter bothPathsAsk "dep" = None
  /\ (countCalls (isResolveOf "dep" "/main") <$> callsAfter bothPathsAsk) = Some 2
  /\ memoAfter dynamicPathStores "dep"
     = Some {| rid_external := false; rid_id := "/a/x";
               rid_moduleSideEffects := true; rid_syntheticNamedExports := false |}
  /\ memoAfter staticPathStores "dep"
     = Some {| rid_external := false; rid_id := "/a/y";
               rid_moduleSideEffects := true; rid_syntheticNamedExports := false |}.
Proof. split_and!; vm_compute; reflexivity. Qed.

(** ** Claims about the registry and the loads *)

Lemma fetchModule_existing host id importer moduleSideEffects syntheticNamedExports
    isEntry st r m :
  mapGet id (modulesById st) = Some r ->
  heap st !! r = Some (OModule m) ->
  runSync (fetchModule host id importer moduleSideEffects syntheticNamedExports isEntry) st
  = Some (set_heap (alter (writeObj (W_isEntryPoint (m_isEntryPoint m || isEntry))) r) st,
          inr r).
Proof.
  intros Hr Hm. unfold fetchModule. rewrite runSync_bind. simpl.
  unfold existingModule. rewrite Hr. simpl. rewrite Hm. done.
Qed.

(** A program that runs to its end without suspending takes one turn, in
    which no collaborator is called and no activation is started. *)
Lemma turn_runSync host fuel self (t : Async Value) w st' r :
  runSync t (loader w) = Some (st', r) ->
  turn host fuel self t w
  = Some (withLoader st' w, match r with inr v => TDone v | inl e => TFailed e end).
Proof.
  revert w. induction t as [v|e|k IH|s k IH|k IH|c k IH|c k IH|ps k IH];
    intros w Hrun; simpl in Hrun; try done.
  - rewrite turn_Ret. simplify_eq. by destruct w.
  - rewrite turn_Throw. simplify_eq. by destruct w.
  - rewrite turn_Get. by apply IH.
  - rewrite turn_Put. by rewrite (IH (withLoader s w)).
Qed.

(** C1: [fetchModule] loads and parses a module body at most once.  In every
    world a run of the loader reaches, under any schedule and any replies of
    the collaborators, the load hook, the filesystem and the transformer were
    each called at most once for any id; and when the registry holds an
    internal module under [id], [fetchModule] runs to its end without
    suspending, calls no collaborator, returns that module and changes
    nothing but its [isEntryPoint], which becomes [isEntryPoint || isEntry]. *)
Theorem fetchModule_loads_each_id_at_most_once
    (host : Host) (schedule : list Choice) (w : World) :
  run host schedule (initialWorld host) = Some w ->
  (forall id,
      countCalls (isLoadOf id) (calls w) <= 1
      /\ countCalls (isReadOf id) (calls w) <= 1
      /\ countCalls (isTransformOf id) (calls w) <= 1)
  /\ (forall id importer moduleSideEffects syntheticNamedExports isEntry r m,
        mapGet id (modulesById (loader w)) = Some r ->
        heap (loader w) !! r = Some (OModule m) ->
        let st' := set_heap
                     (alter (writeObj (W_isEntryPoint (m_isEntryPoint m || isEntry))) r)
                     (loader w) in
        runSync (fetchModule host id importer moduleSideEffects syntheticNamedExports
                             isEntry) (loader w)
        = Some (st', inr r)
        /\ forall fuel self,
            turn host fuel self
                 (module <- fetchModule host id importer moduleSideEffects
                                        syntheticNamedExports isEntry ;;
                  Ret (VRef module)) w
            = Some (withLoader st' w, TDone (VRef r))).
Proof.
  intros Hrun. pose proof (reachable_ok host schedule w Hrun) as [Hc _ _]. split.
  - intros id. by eapply Consistent_counts.
  - intros id importer moduleSideEffects syntheticNamedExports isEntry r m Hr Hm. cbv zeta.
    pose proof (fetchModule_existing host id importer moduleSideEffects
                  syntheticNamedExports isEntry _ _ _ Hr Hm) as Hfast.
    split; [done|]. intros fuel self.
    apply (turn_runSync host fuel self _ w _ (inr (VRef r))).
    by rewrite runSync_bind, Hfast.
Qed.

(** The run that loads the entry [main]: [/main] is registered as module
    [0], and fetching it again returns module [0]. *)
Lemma fetchModule_loads_each_id_at_most_once_witness :
  run exampleHost mainLoaded (initialWorld exampleHost) = Some (worldAfter mainLoaded)
  /\ countCalls (isLoadOf "/main") (calls (worldAfter mainLoaded)) <= 1
  /\ countCalls (isTransformOf "/main") (calls (worldAfter mainLoaded)) <= 1
  /\ runSync (fetchModule exampleHost "/main" (Some "/other") true false false)
             (loaderAfter mainLoaded)
     = Some (set_heap
               (alter (writeObj (W_isEntryPoint
                                   (m_isEntryPoint (moduleAfter mainLoaded 0) || false))) 0)
               (loaderAfter mainLoaded),
             inr 0).
Proof.
  assert (Hrun : run exampleHost mainLoaded (initialWorld exampleHost)
                 = Some (worldAfter mainLoaded)).
  { apply worldAfter_run. vm_compute. reflexivity. }
  assert (Hr : mapGet "/main" (modulesById (loader (worldAfter mainLoaded))) = Some 0)
    by (vm_compute; reflexivity).
  assert (Hm : heap (loader (worldAfter mainLoaded)) !! 0
               = Some (OModule (moduleAfter mainLoaded 0))) by (vm_compute; reflexivity).
  destruct (fetchModule_loads_each_id_at_most_once exampleHost mainLoaded
              (worldAfter mainLoaded) Hrun) as [Hcounts Hfast].
  pose proof (proj1 (Hfast "/main" (Some "/other") true false false 0
                           (moduleAfter mainLoaded 0) Hr Hm)) as Hfetch.
  repeat apply conj.
  - exact Hrun.
  - exact (proj1 (Hcounts "/main")).
  - exact (proj2 (proj2 (Hcounts "/main"))).
  - exact Hfetch.
Defined.

(** ** Entry resolution *)

(** C10: entry resolution bypasses both configured policies.
    [loadEntryModule] first calls the [resolveId] pipeline of the
    collaborators with the unresolved id; the program it runs is the same
    whatever the [external], [moduleSideEffects] and [pureExternalModules]
    options and the path predicates are; and when the pipeline answers with a
    string, or with an object that is not external, under an id the registry
    holds no internal module for, the module is created with
    [moduleSideEffects = true], [syntheticNamedExports = false] and
    [isEntryPoint = isEntry], registered and watched, nothing is traced, and
    the next thing that happens is the call of the load hook. *)
Theorem loadEntryModule_bypasses_policies
    (host : Host) (unresolvedId : string) (isEntry : bool) (importer : option string) :
  exists k,
    loadEntryModule host unresolvedId isEntry importer
    = AwaitExt (callResolveId unresolvedId importer (preserveSymlinks host) None) k
    /\ (forall host',
          sameCollaborators host host' ->
          loadEntryModule host' unresolvedId isEntry importer
          = loadEntryModule host unresolvedId isEntry importer)
    /\ (forall st id result,
          resolvesInternalTo result = Some id ->
          existingModule st id = None ->
          exists k',
            runPrefix (k (replyResolveId result)) st
            = (set_watchFiles (union {[id]})
                 (set_modulesById (mapSet id (length (heap st)))
                    (set_heap (fun h => h ++ [OModule (newModule id true false isEntry)])
                              st)),
               AwaitExt (callLoadHook id) k')).
Proof.
  eexists. split; [reflexivity|]. split.
  - intros host' (Hrel & Hsym & Hcache).
    destruct host, host'; simpl in *. by subst.
  - intros st id result Hres Hnone.
    destruct result as [s| | |o]; simpl in Hres; try done.
    + simplify_eq. simpl. rewrite Hnone. simpl. eauto.
    + destruct (pr_external o) eqn:Hext; [done|]. simplify_eq. simpl.
      rewrite Hext. simpl. rewrite Hnone. simpl. eauto.
Qed.

(** With a host whose [external] option matches every id, the entry [main]
    resolved to [/main] is created as an internal module. *)
Lemma loadEntryModule_bypasses_policies_witness :
  exists k,
    loadEntryModule recordingHost "main" true None
    = AwaitExt (callResolveId "main" None false None) k
    /\ exists k',
        runPrefix (k (replyResolveId (RString "/main"))) (newModuleLoader recordingHost)
        = (set_watchFiles (union {["/main"]})
             (set_modulesById (mapSet "/main" 0)
                (set_heap (fun h => h ++ [OModule (newModule "/main" true false true)])
                          (newModuleLoader recordingHost))),
           AwaitExt (callLoadHook "/main") k').
Proof.
  destruct (loadEntryModule_bypasses_policies recordingHost "main" true None)
    as (k & Hfirst & _ & Hcreated).
  exists k. split; [exact Hfirst|].
  apply (Hcreated (newModuleLoader recordingHost) "/main" (RString "/main")); reflexivity.
Defined.

(** ** The export linker *)

Lemma mapHas_mapSet_eq {V} k (v : V) m : mapHas k (mapSet k v m) = true.
Proof. unfold mapHas. by rewrite mapGet_mapSet_eq. Qed.

Lemma mapHas_true {V} k (m : list (string * V)) : mapHas k m = true <-> is_Some (mapGet k m).
Proof. unfold mapHas. destruct (mapGet k m); split; intros H; try done; by destruct H. Qed.


Lemma writeModule_exportsAll_twice E1 E2 m :
  writeModule (W_exportsAll E2) (writeModule (W_exportsAll E1) m)
  = writeModule (W_exportsAll E2) m.
Proof. done. Qed.












(** *** What the linker leaves *)



Lemma copyExportsAll_kept moduleId dependencyId D names : forall acc name definer,
  mapGet name acc.1 = Some definer ->
  mapGet name (copyExportsAll moduleId dependencyId D names acc).1 = Some definer.
Proof.
  induction names as [|n rest IH]; intros acc name definer Hname; [done|].
  simpl. apply IH. destruct (mapHas n acc.1) eqn:Hhas; [done|].
  destruct (mapGet n D); [|done]. simpl.
  rewrite mapGet_mapSet_ne; [done|]. intros ->.
  unfold mapHas in Hhas. by rewrite Hname in Hhas.
Qed.




(** Every warning of a copy names a conflict of this module with this
    dependency, for a name the module has. *)
Lemma copyExportsAll_warnings moduleId dependencyId D names : forall acc w,
  w ∈ (copyExportsAll moduleId dependencyId D names acc).2 ->
  w ∈ acc.2
  \/ exists name, w = EvWarn (errNamespaceConflict name moduleId dependencyId)
                  /\ name ∈ names
                  /\ is_Some (mapGet name (copyExportsAll moduleId dependencyId D names acc).1).
Proof.
  induction names as [|n rest IH]; intros acc w Hw; [by left|].
  simpl in *. apply IH in Hw as [Hw|(name & -> & Hin & Hsome)].
  - destruct (mapHas n acc.1) eqn:Hhas; simpl in Hw.
    + apply elem_of_app in Hw as [Hw|Hw]; [by left|].
      apply list_elem_of_singleton in Hw as ->. right. exists n.
      split_and!; [done|by left|].
      apply mapHas_true in Hhas as [v Hv]. exists v.
      by apply copyExportsAll_kept.
    + destruct (mapGet n D); by left.
  - right. exists name. split_and!; [done|by right|done].
Qed.









(** ** Manual chunks *)

Lemma alter_same_alias st module m a :
  heap st !! module = Some (OModule m) -> m_manualChunkAlias m = Some a ->
  alter (writeObj (W_manualChunkAlias (Some a))) module (heap st) = heap st.
Proof.
  intros Hm Ha. apply list_eq. intros i. destruct (decide (i = module)) as [->|Hi].
  - rewrite list_lookup_alter_eq, Hm. simpl. destruct m; simpl in *. by subst.
  - by rewrite list_lookup_alter_ne.
Qed.

(** The loop of [assignManualChunks] over modules the callable gives no
    alias: nothing changes. *)
Lemma assignManualChunksLoop_silent getManualChunk modules : forall st,
  (forall r m' st', r ∈ modules -> heap st !! r = Some (OModule m') ->
                    getManualChunk (m_id m') st' = (None, [])) ->
  runSync (assignManualChunksLoop getManualChunk modules) st = Some (st, inr tt).
Proof.
  induction modules as [|r rest IH]; intros st Hsilent; [done|].
  cbn [assignManualChunksLoop]. rewrite runSync_bind. simpl (runSync get st). cbv iota beta.
  rewrite runSync_bind.
  assert (Hrest : runSync (assignManualChunksLoop getManualChunk rest) st = Some (st, inr tt)).
  { apply IH. intros r' m' st' Hr'. apply Hsilent. by right. }
  destruct (heap st !! r) as [[m'|x]|] eqn:Hr; try (simpl; exact Hrest).
  rewrite runSync_bind. unfold traced. rewrite runSync_bind.
  rewrite (Hsilent r m' st) by (done || by left). simpl. exact Hrest.
Qed.

(** C8, as the code has it: after [addManualChunks] gave module [m] the
    alias [a], [assignManualChunks] with a callable that returns [a] for the
    id of [m], and no alias for the other modules of the registry, raises no
    error and leaves the alias of [m] and everything else of the loader as it
    was, except that [m] is appended once more to the list stored under
    [a]. *)
Theorem assignManualChunks_same_alias_appends_again
    (st : Loader) (module : nat) (m : Module) (a : string)
    (getManualChunk : GetManualChunk) (before after chunk : list nat) :
  heap st !! module = Some (OModule m) ->
  m_manualChunkAlias m = Some a ->
  manualChunkModules st !! a = Some chunk ->
  map snd (modulesById st) = before ++ module :: after ->
  (forall st', getManualChunk (m_id m) st' = (Some a, [])) ->
  (forall r m' st', r ∈ before ++ after -> heap st !! r = Some (OModule m') ->
                    getManualChunk (m_id m') st' = (None, [])) ->
  exists st',
    runSync (assignManualChunks getManualChunk) st = Some (st', inr VUndefined)
    /\ sameButChunks st st'
    /\ manualChunkModules st' = <[a := chunk ++ [module]]> (manualChunkModules st).
Proof.
  intros Hm Ha Hchunk Hreg Hfn Hothers.
  assert (Hloop : forall modules1 modules2 st0,
    runSync (assignManualChunksLoop getManualChunk (modules1 ++ modules2)) st0
    = match runSync (assignManualChunksLoop getManualChunk modules1) st0 with
      | Some (st1, inr _) => runSync (assignManualChunksLoop getManualChunk modules2) st1
      | other => other
      end).
  { induction modules1 as [|r rest IH]; intros modules2 st0.
    - done.
    - cbn [app assignManualChunksLoop]. rewrite !runSync_bind. simpl (runSync get st0).
      cbv iota beta. rewrite !runSync_bind.
      destruct (runSync _ st0) as [[st1 [e|[]]]|]; done. }
  unfold assignManualChunks. rewrite runSync_bind. simpl (runSync get st). cbv iota beta.
  rewrite Hreg, runSync_bind, Hloop.
  rewrite assignManualChunksLoop_silent.
  2: { intros r m' st' Hr. apply Hothers, elem_of_app. by left. }
  cbn [assignManualChunksLoop]. rewrite runSync_bind. simpl (runSync get st). cbv iota beta.
  rewrite Hm, runSync_bind, runSync_bind. unfold traced at 1. rewrite runSync_bind, Hfn.
  simpl (runSync (modify _) st). cbv iota beta. simpl (runSync (Ret _) _). cbv iota beta.
  set (st1 := set_manualChunkModules (alter (fun modules => modules ++ [module]) a)
                (set_heap (alter (writeObj (W_manualChunkAlias (Some a))) module) st)).
  assert (Hadd : runSync (addModuleToManualChunk a module) st
                 = Some (st1, inr tt)).
  { unfold addModuleToManualChunk, readModule. simpl. rewrite Hm. simpl.
    rewrite Ha, bool_decide_false by (intros H; by apply H). simpl.
    by rewrite Hchunk. }
  rewrite Hadd.
  assert (Hheap1 : heap st1 = heap st) by by apply (alter_same_alias st module m a).
  rewrite assignManualChunksLoop_silent.
  2: { intros r m' st' Hr Hlookup. rewrite Hheap1 in Hlookup.
       eapply Hothers; [|done]. apply elem_of_app. by right. }
  exists st1. split; [done|]. split.
  - by split_and!.
  - unfold st1. simpl. apply map_eq. intros alias.
    destruct (decide (alias = a)) as [->|Hne].
    + by rewrite lookup_alter_eq, lookup_insert_eq, Hchunk.
    + by rewrite lookup_alter_ne, lookup_insert_ne.
Qed.

(** After [addManualChunks({a: ['lib']})], with [libInChunkA]. *)
Lemma assignManualChunks_same_alias_appends_again_witness :
  heap (loaderAfter manualChunkAdded) !! 0 = Some (OModule (moduleAfter manualChunkAdded 0))
  /\ m_manualChunkAlias (moduleAfter manualChunkAdded 0) = Some "a"
  /\ manualChunkModules (loaderAfter manualChunkAdded) !! "a" = Some [0]
  /\ map snd (modulesById (loaderAfter manualChunkAdded)) = [] ++ 0 :: []
  /\ exists st',
      runSync (assignManualChunks libInChunkA) (loaderAfter manualChunkAdded)
      = Some (st', inr VUndefined)
      /\ manualChunkModules st'
         = <["a" := [0] ++ [0]]> (manualChunkModules (loaderAfter manualChunkAdded)).
Proof.
  assert (Hm : heap (loaderAfter manualChunkAdded) !! 0
               = Some (OModule (moduleAfter manualChunkAdded 0))) by (vm_compute; reflexivity).
  assert (Ha : m_manualChunkAlias (moduleAfter manualChunkAdded 0) = Some "a")
    by (vm_compute; reflexivity).
  assert (Hchunk : manualChunkModules (loaderAfter manualChunkAdded) !! "a" = Some [0])
    by (vm_compute; reflexivity).
  assert (Hreg : map snd (modulesById (loaderAfter manualChunkAdded)) = [] ++ 0 :: [])
    by (vm_compute; reflexivity).
  destruct (assignManualChunks_same_alias_appends_again
              (loaderAfter manualChunkAdded) 0 (moduleAfter manualChunkAdded 0) "a"
              libInChunkA [] [] [0] Hm Ha Hchunk Hreg)
    as (st' & Hrun & _ & Hchunks).
  - intros st'. vm_compute. reflexivity.
  - intros r m' st' Hr. destruct (proj1 (elem_of_nil r) Hr).
  - repeat apply conj; [exact Hm|exact Ha|exact Hchunk|exact Hreg|].
    exists st'. split; [exact Hrun|exact Hchunks].
Defined.

(** C8, as the claim has it, fails: after [addManualChunks({a: ['lib']})]
    the list under [a] holds the module once; after [assignManualChunks]
    with a callable that returns [a] for the module's id it holds it twice,
    with no error raised and the alias unchanged. *)
Lemma assignManualChunks_is_not_a_noop :
  chunkAfter manualChunkAdded "a" = Some [0]
  /\ pendingAfter manualChunkAdded = Some 0
  /\ chunkAfter manualChunkAssignedAgain "a" = Some [0; 0]
  /\ chunkAfter manualChunkAssignedAgain "a" <> chunkAfter manualChunkAdded "a"
  /\ aliasAfter manualChunkAdded = Some (Some "a")
  /\ aliasAfter manualChunkAssignedAgain = Some (Some "a")
  /\ failedAfter manualChunkAssignedAgain = Some [].
Proof. split_and!; by vm_compute. Qed.

(** ** The entry list *)

(** ** The entry list *)







Lemma shape_objId st st' r :
  shape st' = shape st -> objId <$> heap st' !! r = objId <$> heap st !! r.
Proof.
  unfold shape. intros [= Hreg Hheap].
  assert (Hl : ((fun o => (isModule o, objId o)) <$> heap st') !! r
               = ((fun o => (isModule o, objId o)) <$> heap st) !! r) by by rewrite Hheap.
  rewrite !list_lookup_fmap in Hl.
  destruct (heap st' !! r), (heap st !! r); simplify_eq/=; congruence.
Qed.




















(** * Further properties of the code *)

(** ** The options the constructor compiles *)

Lemma partitionValues_elem_of (values : list (string + RegExp)) :
  (forall id, id ∈ (partitionValues values).1 <-> inl id ∈ values)
  /\ (forall matcher, matcher ∈ (partitionValues values).2 <-> inr matcher ∈ values).
Proof.
  induction values as [|value rest [IHids IHmatchers]]; simpl.
  - split; intros x; split; intros H; by apply elem_of_nil in H.
  - destruct (partitionValues rest) as [ids matchers]. simpl in *.
    destruct value as [s|re]; simpl; split; intros x; rewrite ?elem_of_cons;
      rewrite <- ?IHids, <- ?IHmatchers; intuition congruence.
Qed.

Lemma matcher_of_list (T : Type) (values : list (string + RegExp)) (id : string) (args : T) :
  snd (getIdMatcher (OptList values) id args) = []
  /\ (fst (getIdMatcher (OptList values) id args) = true
      <-> inl id ∈ values
          \/ exists matcher, inr matcher ∈ values /\ test matcher id = true).
Proof.
  destruct (partitionValues_elem_of values) as [Hids Hmatchers].
  unfold getIdMatcher. destruct (partitionValues values) as [ids matchers]. simpl in *.
  split; [done|]. rewrite orb_true_iff, bool_decide_eq_true, Hids, existsb_exists.
  split; (intros [Hid|(matcher & Hin & Htest)]; [by left|right; exists matcher]).
  - split; [|done]. by apply Hmatchers, list_elem_of_In.
  - split; [|done]. by apply list_elem_of_In, Hmatchers.
Qed.

(** X1: the matcher compiled from a list answers without running anything,
    and matches an id exactly when the list holds the id itself or a
    pattern that accepts it. *)
Theorem getIdMatcher_list_matches_ids_and_patterns
    (T : Type) (values : list (string + RegExp)) (id : string) (args : T) :
  snd (getIdMatcher (OptList values) id args) = []
  /\ (fst (getIdMatcher (OptList values) id args) = true
      <-> inl id ∈ values
          \/ exists matcher, inr matcher ∈ values /\ test matcher id = true).
Proof. apply matcher_of_list. Qed.

(** X2: the default side-effect policy, used when the option is none of a
    boolean, ['no-external'], a function or an array.  An internal module has
    side effects and [pureExternalModules] is not consulted; an external
    module has none exactly when [pureExternalModules] matches it, so with a
    list exactly when the list holds its id or a pattern that accepts
    it. *)
Theorem default_policy_consults_pureExternalModules_for_externals_only
    (isTruthy : bool) (pure : PureModulesOption)
    (values : list (string + RegExp)) (id : string) :
  fst (getHasModuleSideEffects (MSEOther isTruthy) pure) id false = (true, [])
  /\ fst (getHasModuleSideEffects (MSEOther isTruthy) pure) id true
     = (negb (fst (getIdMatcher pure id tt)), snd (getIdMatcher pure id tt))
  /\ (fst (fst (getHasModuleSideEffects (MSEOther isTruthy) (OptList values)) id true) = false
      <-> inl id ∈ values
          \/ exists matcher, inr matcher ∈ values /\ test matcher id = true).
Proof.
  split; [done|]. split.
  - simpl. destruct (getIdMatcher pure id tt) as [b evs]. simpl.
    by rewrite app_nil_r.
  - destruct (matcher_of_list unit values id tt) as [Hnone Hiff].
    rewrite <- Hiff. cbn [getHasModuleSideEffects fst].
    destruct (getIdMatcher (OptList values) id tt) as [b evs]. simpl. by destruct b.
Qed.

(** X3: the constructor warns about the [moduleSideEffects] option exactly
    when the option is a truthy value that is none of a boolean,
    ['no-external'], a function or an array; the warning is one
    [INVALID_OPTION], and nothing else is in the trace of a new loader. *)
Theorem constructor_warns_of_invalid_option_only (host : Host) :
  (moduleSideEffects host = MSEOther true <-> trace (newModuleLoader host) <> [])
  /\ forall event, event ∈ trace (newModuleLoader host) ->
       trace (newModuleLoader host) = [event]
       /\ exists w, event = EvWarn w /\ code w = "INVALID_OPTION".
Proof.
  unfold newModuleLoader. simpl.
  destruct (moduleSideEffects host) as [b| |f|l|[]]; simpl.
  all: split; [split; [try discriminate|try done]|].
  all: try (intros event Hin; by apply elem_of_nil in Hin).
  intros event Hin. apply list_elem_of_singleton in Hin as ->. split; [done|]. eauto.
Qed.

(** X4: with a callable as [moduleSideEffects], a module whose id is not
    synthetic is free of side effects only when the callable answers
    [false]: [null], [undefined] and [true] all mean side effects.  The
    callable runs once, with the id and the flag. *)
Theorem callable_policy_needs_explicit_false
    (f : string -> bool -> Traced UserBool) (pure : PureModulesOption)
    (id : string) (isExternalModule : bool) :
  startsWithNul id = false ->
  let answer := fst (getHasModuleSideEffects (MSEFn f) pure) id isExternalModule in
  (fst answer = false <-> fst (f id isExternalModule) = UFalse)
  /\ snd answer = snd (f id isExternalModule).
Proof.
  intros Hid. simpl. rewrite Hid. simpl.
  destruct (f id isExternalModule) as [[] evs]; simpl; rewrite app_nil_r; by split.
Qed.

(** The callable of [recordingHost] answers [false] for [/a], and is
    recorded once. *)
Lemma callable_policy_needs_explicit_false_witness :
  startsWithNul "/a" = false
  /\ fst (fst (getHasModuleSideEffects (MSEFn recordingSideEffects) (OptBool false))
               "/a" false) = false
  /\ snd (fst (getHasModuleSideEffects (MSEFn recordingSideEffects) (OptBool false))
               "/a" false) = [EvInvoked "moduleSideEffects" "/a"].
Proof.
  assert (Hid : startsWithNul "/a" = false) by reflexivity.
  destruct (callable_policy_needs_explicit_false recordingSideEffects (OptBool false)
              "/a" false Hid) as [Hiff Hevents].
  split; [exact Hid|]. split; [apply Hiff; reflexivity|exact Hevents].
Defined.


(** ** Resolution *)

Lemma runSync_traced_bind {A B} (m : Traced A) (f : A -> Async B) st :
  runSync (x <- traced m ;; f x) st = runSync (f (fst m)) (emit (snd m) st).
Proof. by rewrite runSync_bind. Qed.

Lemma runSync_Ret_bind {A B} (a : A) (f : A -> Async B) st :
  runSync (x <- Ret a ;; f x) st = runSync (f a) st.
Proof. done. Qed.

Lemma heap_emit evs st : heap (emit evs st) = heap st.
Proof. by destruct evs. Qed.

Lemma modulesById_emit evs st : modulesById (emit evs st) = modulesById st.
Proof. by destruct evs. Qed.

Lemma trace_emit evs st : trace (emit evs st) = trace st ++ evs.
Proof. destruct evs; simpl; [by rewrite app_nil_r|done]. Qed.

Lemma normalizeResolveIdResult_spec
    (host : Host) (resolveIdResult : ResolveIdResult) (importer : option string)
    (source : string) (st : Loader) :
  exists st' resolved,
    runSync (normalizeResolveIdResult host resolveIdResult importer source) st
    = Some (st', inr resolved)
    /\ heap st' = heap st /\ modulesById st' = modulesById st
    /\ (resolved = None ->
        (resolveIdResult = RNullish \/ resolveIdResult = RString "")
        /\ fst (isExternal host (normalizeRelativeExternalId host source importer)
                           (importer, true)) = false)
    /\ (forall r, resolved = Some r -> rid_external r = false ->
          resolveIdResult = RString (rid_id r)
          \/ exists o, resolveIdResult = RObject o /\ pr_id o = rid_id r
                       /\ pr_external o = false)
    /\ (forall r, resolved = Some r -> rid_syntheticNamedExports r = true ->
          exists o, resolveIdResult = RObject o /\ pr_syntheticNamedExports o = Some true).
Proof.
  assert (Hfalsy : forall (allowNull : bool),
    exists st' resolved,
      runSync (matches <- (if allowNull
                           then traced (isExternal host
                                          (normalizeRelativeExternalId host source importer)
                                          (importer, true))
                           else Ret true) ;;
               if negb matches then Ret None
               else sideEffects <- traced (hasModuleSideEffects host
                                             (normalizeRelativeExternalId host source importer)
                                             true) ;;
                    Ret (Some {| rid_external := true;
                                 rid_id := normalizeRelativeExternalId host source importer;
                                 rid_moduleSideEffects := sideEffects;
                                 rid_syntheticNamedExports := false |})) st
      = Some (st', inr resolved)
      /\ heap st' = heap st /\ modulesById st' = modulesById st
      /\ (resolved = None ->
          allowNull = true
          /\ fst (isExternal host (normalizeRelativeExternalId host source importer)
                             (importer, true)) = false)
      /\ (forall r, resolved = Some r -> rid_external r = true)
      /\ (forall r, resolved = Some r -> rid_syntheticNamedExports r = false)).
  { intros [].
    - rewrite runSync_traced_bind.
      destruct (fst (isExternal host _ (importer, true))) eqn:Hext; simpl negb; cbv iota.
      + rewrite runSync_traced_bind. simpl. eexists _, _. split; [reflexivity|].
        rewrite !heap_emit, !modulesById_emit.
        split_and!; try done; by intros r [= <-].
      + simpl. eexists _, _. split; [reflexivity|].
        rewrite !heap_emit, !modulesById_emit. split_and!; done.
    - rewrite runSync_Ret_bind. simpl negb. cbv iota. rewrite runSync_traced_bind. simpl.
      eexists _, _. split; [reflexivity|]. rewrite !heap_emit, !modulesById_emit.
      split_and!; try done; by intros r [= <-]. }
  destruct resolveIdResult as [[|c s]| | |o].
  - destruct (Hfalsy true) as (st' & resolved & Hrun & Hh & Hr & Hnone & Hext & Hsyn).
    exists st', resolved. split; [exact Hrun|]. split_and!; try done.
    + intros ->. destruct (Hnone eq_refl). split; [by right|done].
    + intros r -> Hr'. rewrite (Hext r) in Hr'; done.
    + intros r -> Hr'. rewrite (Hsyn r) in Hr'; done.
  - unfold normalizeResolveIdResult. rewrite runSync_traced_bind.
    destruct (fst (isExternal host (String c s) (importer, true))) eqn:Hext.
    + cbv iota. rewrite runSync_traced_bind. simpl. eexists _, _. split; [reflexivity|].
      rewrite !heap_emit, !modulesById_emit.
      split_and!; try done; by intros r [= <-].
    + cbv iota. rewrite runSync_traced_bind. simpl. eexists _, _. split; [reflexivity|].
      rewrite !heap_emit, !modulesById_emit.
      split_and!; try done; intros r [= <-]; [by left|done].
  - unfold normalizeResolveIdResult. rewrite runSync_traced_bind. simpl.
    eexists _, _. split; [reflexivity|]. rewrite !heap_emit, !modulesById_emit.
    split_and!; try done; by intros r [= <-].
  - destruct (Hfalsy true) as (st' & resolved & Hrun & Hh & Hr & Hnone & Hext & Hsyn).
    exists st', resolved. split; [exact Hrun|]. split_and!; try done.
    + intros ->. destruct (Hnone eq_refl). split; [by left|done].
    + intros r -> Hr'. rewrite (Hext r) in Hr'; done.
    + intros r -> Hr'. rewrite (Hsyn r) in Hr'; done.
  - unfold normalizeResolveIdResult.
    destruct (pr_moduleSideEffects o) as [b|] eqn:Hmse.
    + simpl. eexists _, _. split; [reflexivity|].
      split_and!; try done; intros r [= <-]; simpl.
      * intros Hx. right. by exists o.
      * intros Hs. exists o. split; [done|]. by destruct (pr_syntheticNamedExports o) as [[]|].
    + rewrite runSync_traced_bind. simpl. eexists _, _. split; [reflexivity|].
      rewrite !heap_emit, !modulesById_emit.
      split_and!; try done; intros r [= <-]; simpl.
      * intros Hx. right. by exists o.
      * intros Hs. exists o. split; [done|]. by destruct (pr_syntheticNamedExports o) as [[]|].
Qed.

(** X5: [normalizeResolveIdResult] always returns, and touches neither the
    registry nor the modules.  It returns [null] only when the resolver gave
    [null], [undefined] or the empty string and the [external] option does
    not match the normalized source; a resolution that is not external has
    the id the resolver gave, as it is; and [syntheticNamedExports] is set
    only when the resolver's object sets it. *)
Theorem normalizeResolveIdResult_keeps_internal_ids
    (host : Host) (resolveIdResult : ResolveIdResult) (importer : option string)
    (source : string) (st : Loader) :
  exists st' resolved,
    runSync (normalizeResolveIdResult host resolveIdResult importer source) st
    = Some (st', inr resolved)
    /\ heap st' = heap st /\ modulesById st' = modulesById st
    /\ (resolved = None ->
        (resolveIdResult = RNullish \/ resolveIdResult = RString "")
        /\ fst (isExternal host (normalizeRelativeExternalId host source importer)
                           (importer, true)) = false)
    /\ (forall r, resolved = Some r -> rid_external r = false ->
          resolveIdResult = RString (rid_id r)
          \/ exists o, resolveIdResult = RObject o /\ pr_id o = rid_id r
                       /\ pr_external o = false)
    /\ (forall r, resolved = Some r -> rid_syntheticNamedExports r = true ->
          exists o, resolveIdResult = RObject o /\ pr_syntheticNamedExports o = Some true).
Proof. apply normalizeResolveIdResult_spec. Qed.


(** X6: when the [external] option matches the source, [resolveId] asks no
    resolver: it runs to its end without suspending and returns an external
    resolution of the normalized source, with [syntheticNamedExports]
    unset. *)
Theorem resolveId_external_source_asks_no_resolver
    (host : Host) (source : string) (importer : option string) (skip : option nat)
    (st : Loader) :
  fst (isExternal host source (importer, false)) = true ->
  exists st' sideEffects,
    runSync (resolveId host source importer skip) st
    = Some (st', inr (Some {| rid_external := true;
                              rid_id := normalizeRelativeExternalId host source importer;
                              rid_moduleSideEffects := sideEffects;
                              rid_syntheticNamedExports := false |}))
    /\ heap st' = heap st /\ modulesById st' = modulesById st.
Proof.
  intros Hext. unfold resolveId. rewrite runSync_traced_bind, Hext.
  rewrite runSync_Ret_bind. unfold normalizeResolveIdResult.
  rewrite runSync_traced_bind. simpl. eexists _, _. split; [reflexivity|].
  by rewrite !heap_emit, !modulesById_emit.
Qed.

(** [lodash] is listed as external by [listHost]. *)
Lemma resolveId_external_source_asks_no_resolver_witness :
  fst (isExternal listHost "lodash" (Some "/main", false)) = true
  /\ exists st' sideEffects,
      runSync (resolveId listHost "lodash" (Some "/main") None) (newModuleLoader listHost)
      = Some (st', inr (Some {| rid_external := true;
                                rid_id := normalizeRelativeExternalId listHost "lodash"
                                                                      (Some "/main");
                                rid_moduleSideEffects := sideEffects;
                                rid_syntheticNamedExports := false |})).
Proof.
  assert (Hext : fst (isExternal listHost "lodash" (Some "/main", false)) = true)
    by reflexivity.
  destruct (resolveId_external_source_asks_no_resolver listHost "lodash" (Some "/main") None
              (newModuleLoader listHost) Hext) as (st' & sideEffects & Hrun & _).
  split; [exact Hext|]. exists st', sideEffects. exact Hrun.
Defined.



(** ** Modules of the registry *)



(** X9: an id the registry holds as an internal module cannot be imported
    as external: the import fails with [INTERNAL_ID_CANNOT_BE_EXTERNAL], and
    the loader is left as it is. *)
Theorem fetchResolvedDependency_rejects_external_for_internal_id
    (host : Host) (source importer : string) (resolvedId : ResolvedId) (st : Loader)
    (module : nat) (m : Module) :
  rid_external resolvedId = true ->
  mapGet (rid_id resolvedId) (modulesById st) = Some module ->
  heap st !! module = Some (OModule m) ->
  runSync (fetchResolvedDependency host source importer resolvedId) st
  = Some (st, inl (errInternalIdCannotBeExternal source importer))
  /\ code (errInternalIdCannotBeExternal source importer) = "INTERNAL_ID_CANNOT_BE_EXTERNAL".
Proof.
  intros Hext Hreg Hm. split; [|done].
  unfold fetchResolvedDependency, mapHas. rewrite Hext. simpl. rewrite Hreg. simpl.
  rewrite Hreg. simpl. rewrite Hm. done.
Qed.

(** After the entry [main] is loaded as [/main], an import resolved to
    [/main] as external. *)
Lemma fetchResolvedDependency_rejects_external_for_internal_id_witness :
  mapGet "/main" (modulesById (loaderAfter mainLoaded)) = Some 0
  /\ heap (loaderAfter mainLoaded) !! 0 = Some (OModule (moduleAfter mainLoaded 0))
  /\ runSync (fetchResolvedDependency exampleHost "main" "/a"
                {| rid_external := true; rid_id := "/main"; rid_moduleSideEffects := true;
                   rid_syntheticNamedExports := false |})
             (loaderAfter mainLoaded)
     = Some (loaderAfter mainLoaded, inl (errInternalIdCannotBeExternal "main" "/a")).
Proof.
  assert (Hreg : mapGet "/main" (modulesById (loaderAfter mainLoaded)) = Some 0)
    by (vm_compute; reflexivity).
  assert (Hm : heap (loaderAfter mainLoaded) !! 0
               = Some (OModule (moduleAfter mainLoaded 0))) by (vm_compute; reflexivity).
  pose proof (fetchResolvedDependency_rejects_external_for_internal_id exampleHost
                "main" "/a"
                {| rid_external := true; rid_id := "/main"; rid_moduleSideEffects := true;
                   rid_syntheticNamedExports := false |}
                (loaderAfter mainLoaded) 0 (moduleAfter mainLoaded 0) eq_refl Hreg Hm)
    as [Hrun _].
  split; [exact Hreg|]. split; [exact Hm|exact Hrun].
Defined.

(** X10: a module is registered before it is loaded.  When the registry holds
    no internal module under [id], [fetchModule] creates the module, stores
    it under [id] and marks [id] as watched before it calls the load hook.
    A fetch of the same id that arrives while the first is still loading
    therefore runs to its end at once and returns that module; the flags
    [moduleSideEffects] and [syntheticNamedExports] of the later fetch are
    dropped, and [isEntryPoint] becomes the disjunction. *)
Theorem fetchModule_registers_before_it_loads
    (host : Host) (id : string) (importer importer' : option string)
    (moduleSideEffects syntheticNamedExports isEntry : bool)
    (moduleSideEffects' syntheticNamedExports' isEntry' : bool) (st : Loader) :
  existingModule st id = None ->
  exists st' st'' k,
    runPrefix (fetchModule host id importer moduleSideEffects syntheticNamedExports isEntry) st
    = (st', AwaitExt (callLoadHook id) k)
    /\ existingModule st' id
       = Some (length (heap st), newModule id moduleSideEffects syntheticNamedExports isEntry)
    /\ id ∈ watchFiles st'
    /\ runSync (fetchModule host id importer' moduleSideEffects' syntheticNamedExports'
                            isEntry') st'
       = Some (st'', inr (length (heap st)))
    /\ heap st'' !! length (heap st)
       = Some (OModule (newModule id moduleSideEffects syntheticNamedExports
                                  (isEntry || isEntry')))
    /\ modulesById st'' = modulesById st'.
Proof.
  intros Hnone.
  assert (Hnew : existingModule
            (set_watchFiles (union {[id]})
               (set_modulesById (mapSet id (length (heap st)))
                  (set_heap (fun h => h ++ [OModule (newModule id moduleSideEffects
                                                       syntheticNamedExports isEntry)]) st)))
            id
          = Some (length (heap st),
                  newModule id moduleSideEffects syntheticNamedExports isEntry)).
  { unfold existingModule. simpl. rewrite mapGet_mapSet_eq. simpl.
    rewrite lookup_app_r by done. by rewrite Nat.sub_diag. }
  eexists _, _, _. split.
  { unfold fetchModule. simpl. rewrite Hnone. simpl. reflexivity. }
  split; [exact Hnew|]. split; [simpl; set_solver|].
  split.
  { unfold fetchModule. rewrite runSync_bind. simpl (runSync get _). cbv iota beta.
    rewrite Hnew. simpl. reflexivity. }
  split; [|done]. simpl.
  rewrite list_lookup_alter_eq. rewrite lookup_app_r by done. by rewrite Nat.sub_diag.
Qed.

(** The first fetch of [/a] by a new loader, as a dependency without side
    effects; the second as an entry. *)
Lemma fetchModule_registers_before_it_loads_witness :
  existingModule (newModuleLoader exampleHost) "/a" = None
  /\ exists st' st'' k,
      runPrefix (fetchModule exampleHost "/a" (Some "/main") false false false)
                (newModuleLoader exampleHost)
      = (st', AwaitExt (callLoadHook "/a") k)
      /\ runSync (fetchModule exampleHost "/a" None true false true) st' = Some (st'', inr 0)
      /\ heap st'' !! 0 = Some (OModule (newModule "/a" false false true)).
Proof.
  assert (Hnone : existingModule (newModuleLoader exampleHost) "/a" = None) by reflexivity.
  destruct (fetchModule_registers_before_it_loads exampleHost "/a" (Some "/main") None
              false false false true false true (newModuleLoader exampleHost) Hnone)
    as (st' & st'' & k & Hprefix & _ & _ & Hsecond & Hmodule & _).
  split; [exact Hnone|]. exists st', st'', k.
  split; [exact Hprefix|]. split; [exact Hsecond|exact Hmodule].
Defined.

(** X11: entries that cannot be loaded.  [loadEntryModule] fails with
    [ENTRY_CANNOT_BE_EXTERNAL] when the resolver answers [false] or an
    external object, with [UNRESOLVED_ENTRY] when it answers [null] or
    [undefined], and with the resolver's own error when it rejects; in each
    case nothing is registered and the loader is left as it is. *)
Theorem loadEntryModule_fails_without_registering
    (host : Host) (unresolvedId : string) (isEntry : bool) (importer : option string) :
  exists k,
    loadEntryModule host unresolvedId isEntry importer
    = AwaitExt (callResolveId unresolvedId importer (preserveSymlinks host) None) k
    /\ (forall st,
          runSync (k (replyResolveId RFalse)) st
          = Some (st, inl (errEntryCannotBeExternal unresolvedId)))
    /\ (forall st o,
          pr_external o = true ->
          runSync (k (replyResolveId (RObject o))) st
          = Some (st, inl (errEntryCannotBeExternal unresolvedId)))
    /\ (forall st,
          runSync (k (replyResolveId RNullish)) st
          = Some (st, inl (errUnresolvedEntry unresolvedId)))
    /\ (forall st message,
          runSync (k (replyReject message)) st = Some (st, inl (errRejected message)))
    /\ code (errEntryCannotBeExternal unresolvedId) = "ENTRY_CANNOT_BE_EXTERNAL"
    /\ code (errUnresolvedEntry unresolvedId) = "UNRESOLVED_ENTRY".
Proof.
  eexists. split; [reflexivity|]. split_and!; try done.
  intros st o Hext. simpl. by rewrite Hext.
Qed.


(** ** Loading the source of a module *)

(** X12: failed loads.  [addModuleSource] first calls the load hook, and
    reads the file only when the hook answers [null] or [undefined].  An
    error of the hook or of the file system is thrown again with the message
    [Could not load <id> (imported by <importer>): <message>], the importer
    part being left out when there is no importer; a hook answer that is
    neither a string nor an object with a [code] string fails with
    [BAD_LOADER], which is not wrapped.  The loader is left as it is. *)
Theorem addModuleSource_failed_loads
    (host : Host) (id : string) (importer : option string) (module : nat) :
  exists k,
    addModuleSource host id importer module = AwaitExt (callLoadHook id) k
    /\ (forall st message,
          runSync (k (replyReject message)) st
          = Some (st, inl (errCouldNotLoad (couldNotLoad host id importer message))))
    /\ (forall st,
          runSync (k (replyLoad LOther)) st = Some (st, inl (errBadLoader id)))
    /\ (forall st, exists k',
          runPrefix (k (replyLoad LNullish)) st = (st, AwaitExt (callReadFile id) k')
          /\ forall st' message,
               runSync (k' (replyReject message)) st'
               = Some (st', inl (errCouldNotLoad (couldNotLoad host id importer message))))
    /\ code (errBadLoader id) = "BAD_LOADER".
Proof.
  eexists. split; [reflexivity|]. split_and!; try done.
  intros st. eexists. split; [reflexivity|]. done.
Qed.

(** X13: the cache.  When the graph's cache holds the module with the code
    the load hook returned and no custom transform cache, the transformer is
    not called: [addModuleSource] runs to its end, emits the files of the
    cached transformation again, in order, and sets the source from the
    cache.  The [moduleSideEffects] and [syntheticNamedExports] of the source
    description are then not applied to the module.  When the cached code
    differs, the next thing that happens is the call of the transformer. *)
Theorem addModuleSource_replays_cached_transformation
    (host : Host) (id : string) (importer : option string) (module : nat)
    (sourceDescription : SourceDescription) (cachedModule : CachedModule) :
  cachedModules host !! id = Some cachedModule ->
  cm_customTransformCache cachedModule = false ->
  exists k,
    addModuleSource host id importer module = AwaitExt (callLoadHook id) k
    /\ (cm_originalCode cachedModule = sd_code sourceDescription ->
        forall st,
          runSync (k (replyLoad (LObject sourceDescription))) st
          = Some (set_heap (alter (writeObj (W_source (cm_info cachedModule))) module)
                    (emit (map EvEmitFile (default [] (cm_transformFiles cachedModule))) st),
                  inr tt))
    /\ (cm_originalCode cachedModule <> sd_code sourceDescription ->
        sd_moduleSideEffects sourceDescription = None ->
        sd_syntheticNamedExports sourceDescription = None ->
        forall st, exists k',
          runPrefix (k (replyLoad (LObject sourceDescription))) st
          = (st, AwaitExt (callTransform sourceDescription module id) k')).
Proof.
  intros Hcached Hcustom. eexists. split; [reflexivity|]. split.
  - intros Hcode st. simpl. rewrite Hcached, Hcustom.
    rewrite bool_decide_true by done. simpl. reflexivity.
  - intros Hcode Hmse Hsyn st. simpl. rewrite Hcached, Hcustom.
    rewrite bool_decide_false by done. simpl. rewrite Hmse, Hsyn. simpl. eauto.
Qed.

(** [/cached] is loaded with the cached code and a source description that
    says the module has no side effects. *)
Lemma addModuleSource_replays_cached_transformation_witness :
  cachedModules cachedHost !! "/cached"
  = Some {| cm_customTransformCache := false; cm_originalCode := "code";
            cm_transformFiles := Some ["asset-1"; "asset-2"];
            cm_info := bodyWith ["./dep"] [] [] ["default"] |}
  /\ exists k,
      addModuleSource cachedHost "/cached" None 0 = AwaitExt (callLoadHook "/cached") k
      /\ forall st,
          runSync (k (replyLoad (LObject {| sd_code := "code";
                                            sd_moduleSideEffects := Some false;
                                            sd_syntheticNamedExports := None |}))) st
          = Some (set_heap (alter (writeObj (W_source (bodyWith ["./dep"] [] [] ["default"])))
                                  0)
                    (emit [EvEmitFile "asset-1"; EvEmitFile "asset-2"] st),
                  inr tt).
Proof.
  assert (Hcached : cachedModules cachedHost !! "/cached"
                    = Some {| cm_customTransformCache := false; cm_originalCode := "code";
                              cm_transformFiles := Some ["asset-1"; "asset-2"];
                              cm_info := bodyWith ["./dep"] [] [] ["default"] |})
    by (vm_compute; reflexivity).
  destruct (addModuleSource_replays_cached_transformation cachedHost "/cached" None 0
              {| sd_code := "code"; sd_moduleSideEffects := Some false;
                 sd_syntheticNamedExports := None |} _ Hcached eq_refl)
    as (k & Hfirst & Hhit & _).
  split; [exact Hcached|]. exists k. split; [exact Hfirst|].
  exact (Hhit eq_refl).
Defined.

(** ** Importers *)





(** ** Manual chunks and entries *)



(** X16: [assignManualChunks] asks the callable about internal modules
    only, and a module the callable gives no alias is not touched: when the
    callable answers nothing for the id of every internal module of the
    registry, [assignManualChunks] leaves the loader as it is, whatever the
    callable would say of other ids. *)
Theorem assignManualChunks_without_alias_changes_nothing
    (getManualChunk : GetManualChunk) (st : Loader) :
  (forall r m st', r ∈ map snd (modulesById st) -> heap st !! r = Some (OModule m) ->
                   getManualChunk (m_id m) st' = (None, [])) ->
  runSync (assignManualChunks getManualChunk) st = Some (st, inr VUndefined).
Proof.
  intros Hsilent. unfold assignManualChunks.
  rewrite runSync_bind. simpl (runSync get st). cbv iota beta.
  rewrite runSync_bind, assignManualChunksLoop_silent; [done|].
  intros r m st' Hr Hm. by eapply Hsilent.
Qed.

(** The registry holds the internal module [/main] and the external module
    [/shared]; the callable would put [/shared] into a chunk, and is not
    asked. *)
Lemma assignManualChunks_without_alias_changes_nothing_witness :
  map snd (modulesById (loaderAfter sharedAsExternal)) = [0; 1]
  /\ sharedInVendor "/shared" (loaderAfter sharedAsExternal)
     = (Some "vendor", [EvInvoked "getManualChunk" "/shared"])
  /\ runSync (assignManualChunks sharedInVendor) (loaderAfter sharedAsExternal)
     = Some (loaderAfter sharedAsExternal, inr VUndefined).
Proof.
  assert (Hreg : map snd (modulesById (loaderAfter sharedAsExternal)) = [0; 1])
    by (vm_compute; reflexivity).
  assert (H0 : heap (loaderAfter sharedAsExternal) !! 0
               = Some (OModule (moduleAfter sharedAsExternal 0)))
    by (vm_compute; reflexivity).
  assert (Hid : m_id (moduleAfter sharedAsExternal 0) = "/main") by (vm_compute; reflexivity).
  assert (H1 : heap (loaderAfter sharedAsExternal) !! 1
               = Some (OExternal (newExternalModule "/shared" true)))
    by (vm_compute; reflexivity).
  split; [exact Hreg|]. split; [reflexivity|].
  apply assignManualChunks_without_alias_changes_nothing.
  intros r m st'. rewrite Hreg. intros Hr Hm.
  apply elem_of_cons in Hr as [->|Hr].
  - rewrite H0 in Hm.
    assert (Heq : m = moduleAfter sharedAsExternal 0) by congruence.
    rewrite Heq, Hid. reflexivity.
  - apply list_elem_of_singleton in Hr as ->. rewrite H1 in Hm. discriminate Hm.
Defined.

(** X17: [addEntryModules] reserves its indices first.  Before any entry
    of the batch starts to load, [nextEntryModuleIndex] is advanced by the
    number of entries of the batch, so that the batch owns the indices from
    the old value on; nothing else of the loader has changed by then. *)
Theorem addEntryModules_reserves_its_indices_first
    (unresolvedEntryModules : list UnresolvedModule) (isUserDefined : bool) (st : Loader) :
  exists k,
    runPrefix (addEntryModules unresolvedEntryModules isUserDefined) st
    = (set_nextEntryModuleIndex
         (nextEntryModuleIndex st + length unresolvedEntryModules) st,
       Spawn match unresolvedEntryModules with
             | [] => CAll []
             | unresolved :: _ => CLoadEntryModule (id unresolved) true (importer unresolved)
             end k).
Proof.
  unfold addEntryModules. destruct unresolvedEntryModules as [|unresolved rest]; simpl; eauto.
Qed.


Lemma elem_of_setAdd x l : x ∈ setAdd x l.
Proof. unfold setAdd. case_bool_decide; [done|]. apply elem_of_app. right. by left. Qed.

(** X18: naming an entry.  One round of the loop of the [then] callback of
    [addEntryModules] marks the module as user defined when the batch is; a
    file name is added to [chunkFileNames], and the name of the entry is then
    not used at all; without a file name, the name becomes the chunk name
    only when the module has none yet, so the first name given to a module is
    kept, and it is added to [userChunkNames] only when the batch is user
    defined. *)
Theorem entry_naming_keeps_the_first_chunk_name
    (moduleIndex : nat) (unresolved : UnresolvedModule) (entryModule : nat)
    (isUserDefined : bool) (st : Loader) (m : Module) :
  heap st !! entryModule = Some (OModule m) ->
  exists st' m',
    runSync (indexEntryModules moduleIndex [unresolved] [entryModule] isUserDefined) st
    = Some (st', inr tt)
    /\ heap st' !! entryModule = Some (OModule m')
    /\ m_isUserDefinedEntryPoint m' = m_isUserDefinedEntryPoint m || isUserDefined
    /\ (forall chunkName, m_chunkName m = Some chunkName -> m_chunkName m' = Some chunkName)
    /\ (forall file, fileName unresolved = Some file ->
          file ∈ m_chunkFileNames m'
          /\ m_chunkName m' = m_chunkName m
          /\ m_userChunkNames m' = m_userChunkNames m)
    /\ (fileName unresolved = None -> m_chunkName m = None ->
        m_chunkName m' = name unresolved)
    /\ (forall n, fileName unresolved = None -> name unresolved = Some n ->
          isUserDefined = true -> n ∈ m_userChunkNames m')
    /\ (isUserDefined = false -> m_userChunkNames m' = m_userChunkNames m).
Proof.
  intros Hm. cbn [indexEntryModules].
  rewrite runSync_bind, (runSync_readModule _ _ _ Hm). cbv iota beta.
  assert (Hlookup : forall f, alter (writeObj f) entryModule (heap st) !! entryModule
                              = Some (OModule (writeModule f m))).
  { intros f. by rewrite list_lookup_alter_eq, Hm. }
  destruct unresolved as [file ? ? n]. cbn [fileName name].
  destruct file as [file|], n as [n|], (m_chunkName m) as [c|] eqn:Hc, isUserDefined;
    simpl;
    match goal with
    | |- context [findIndexedModule ?s ?i] => destruct (findIndexedModule s i)
    end; simpl;
    eexists _, _; (split; [reflexivity|]); simpl;
    rewrite ?list_lookup_alter_eq, ?Hm; simpl;
    (split; [reflexivity|]); simpl;
    rewrite ?orb_true_r, ?orb_false_r, ?Hc;
    split_and!; try done; intros; simplify_eq; try done;
    try (split_and!; try done); try apply elem_of_setAdd.
Qed.

(** The entry [main] was given with the file name [main.js] and the name
    [main]: the file name is recorded, the name is not. *)
Lemma entry_naming_keeps_the_first_chunk_name_witness :
  heap (loaderAfter mainLoaded) !! 0 = Some (OModule (moduleAfter mainLoaded 0))
  /\ exists st' m',
      runSync (indexEntryModules 0 [namedEntry] [0] true) (loaderAfter mainLoaded)
      = Some (st', inr tt)
      /\ heap st' !! 0 = Some (OModule m')
      /\ "main.js" ∈ m_chunkFileNames m'
      /\ m_chunkName m' = m_chunkName (moduleAfter mainLoaded 0).
Proof.
  assert (Hm : heap (loaderAfter mainLoaded) !! 0
               = Some (OModule (moduleAfter mainLoaded 0))) by (vm_compute; reflexivity).
  destruct (entry_naming_keeps_the_first_chunk_name 0 namedEntry 0 true
              (loaderAfter mainLoaded) (moduleAfter mainLoaded 0) Hm)
    as (st' & m' & Hrun & Hm' & _ & _ & Hfile & _).
  split; [exact Hm|]. exists st', m'. split; [exact Hrun|]. split; [exact Hm'|].
  destruct (Hfile "main.js" eq_refl) as (Hin & Hname & _). split; [exact Hin|exact Hname].
Defined.

(** ** Every run of the loader *)

Lemma phase_names_loaded_id l :
  match foldl advance Unloaded l with
  | Loading id | Reading id | Transforming id => callLoadHook id ∈ l
  | _ => True
  end.
Proof.
  induction l as [|c l IH] using rev_ind; [done|].
  rewrite foldl_app. simpl.
  destruct (foldl advance Unloaded l) as [|id|id|id|] eqn:Hph, c as [| id'| id'|? ? id'|];
    simpl; try done; try (apply elem_of_app; by left);
    try (case_bool_decide; [subst|done]; apply elem_of_app; by left).
  apply elem_of_app. right. by left.
Qed.

Lemma callsOf_app p log log' : callsOf p (log ++ log') = callsOf p log ++ callsOf p log'.
Proof. unfold callsOf. apply omap_app. Qed.

Lemma elem_of_callsOf p c log : c ∈ callsOf p log <-> (p, c) ∈ log.
Proof.
  unfold callsOf. rewrite list_elem_of_omap. split.
  - intros ([q c'] & Hin & Hsome). simpl in Hsome. case_bool_decide; simplify_eq. done.
  - intros Hin. exists (p, c). split; [done|]. simpl. by rewrite bool_decide_true.
Qed.

(** X19: the file is read and the source transformed only after the load
    hook.  In every run, whatever the schedule and the replies, a call of
    the file system or of the transformer for an id comes after a call of the
    load hook for that id, made by the same activation. *)
Theorem sources_are_read_and_transformed_after_the_load_hook
    (host : Host) (schedule : list Choice) (w : World)
    (before after : list (nat * ExtCall)) (p : nat) (c : ExtCall) (id : string) :
  run host schedule (initialWorld host) = Some w ->
  calls w = before ++ (p, c) :: after ->
  isReadOf id c = true \/ isTransformOf id c = true ->
  (p, callLoadHook id) ∈ before.
Proof.
  intros Hrun Hcalls Hc. pose proof (reachable_ok host schedule w Hrun) as [Hcons _ _].
  pose proof (phases_ok _ _ Hcons p) as Hphase. unfold phaseOf in Hphase.
  rewrite Hcalls, callsOf_app in Hphase.
  replace ((p, c) :: after) with ([(p, c)] ++ after) in Hphase by done.
  rewrite callsOf_app in Hphase. unfold callsOf at 2 in Hphase. simpl in Hphase.
  rewrite bool_decide_true in Hphase by done. simpl in Hphase.
  rewrite foldl_app in Hphase. simpl in Hphase.
  apply advance_not_Stuck in Hphase.
  apply elem_of_callsOf.
  pose proof (phase_names_loaded_id (callsOf p before)) as Hloaded.
  destruct (foldl advance Unloaded (callsOf p before)) as [|id'|id'|id'|];
    destruct c as [| | id''|? ? id''|]; simpl in Hc, Hphase;
    destruct Hc as [Hc|Hc]; try done;
    apply bool_decide_eq_true in Hc; subst;
    case_bool_decide; by subst.
Qed.

(** The entry [main], read from the disk: the file system is called by
    activation [2], which called the load hook before. *)
Lemma sources_are_read_and_transformed_after_the_load_hook_witness :
  run exampleHost mainReadFromDisk (initialWorld exampleHost)
  = Some (worldAfter mainReadFromDisk)
  /\ calls (worldAfter mainReadFromDisk)
     = [(2, callResolveId "main" None false None); (2, callLoadHook "/main")]
       ++ (2, callReadFile "/main") :: []
  /\ (2, callLoadHook "/main")
     ∈ [(2, callResolveId "main" None false None); (2, callLoadHook "/main")].
Proof.
  assert (Hrun : run exampleHost mainReadFromDisk (initialWorld exampleHost)
                 = Some (worldAfter mainReadFromDisk)).
  { apply worldAfter_run. vm_compute. reflexivity. }
  assert (Hcalls : calls (worldAfter mainReadFromDisk)
                   = [(2, callResolveId "main" None false None); (2, callLoadHook "/main")]
                     ++ (2, callReadFile "/main") :: []) by (vm_compute; reflexivity).
  split; [exact Hrun|]. split; [exact Hcalls|].
  apply (sources_are_read_and_transformed_after_the_load_hook exampleHost mainReadFromDisk
           (worldAfter mainReadFromDisk) _ [] 2 (callReadFile "/main") "/main" Hrun Hcalls).
  left. reflexivity.
Defined.

(** X20: a loaded id is a registered module.  In every run, an id the load
    hook was called for is held by the registry as an internal module. *)
Theorem loaded_ids_are_registered_modules
    (host : Host) (schedule : list Choice) (w : World) (p : nat) (id : string) :
  run host schedule (initialWorld host) = Some w ->
  (p, callLoadHook id) ∈ calls w ->
  exists module m,
    mapGet id (modulesById (loader w)) = Some module
    /\ heap (loader w) !! module = Some (OModule m).
Proof.
  intros Hrun Hin. pose proof (reachable_ok host schedule w Hrun) as [Hcons _ _].
  apply (loads_registered _ _ Hcons). unfold loadedIds. apply list_elem_of_omap.
  by exists (p, callLoadHook id).
Qed.

Lemma loaded_ids_are_registered_modules_witness :
  run exampleHost mainLoaded (initialWorld exampleHost) = Some (worldAfter mainLoaded)
  /\ (2, callLoadHook "/main") ∈ calls (worldAfter mainLoaded)
  /\ exists module m,
      mapGet "/main" (modulesById (loader (worldAfter mainLoaded))) = Some module
      /\ heap (loader (worldAfter mainLoaded)) !! module = Some (OModule m).
Proof.
  assert (Hrun : run exampleHost mainLoaded (initialWorld exampleHost)
                 = Some (worldAfter mainLoaded)).
  { apply worldAfter_run. vm_compute. reflexivity. }
  assert (Hin : (2, callLoadHook "/main") ∈ calls (worldAfter mainLoaded)).
  { apply (list_elem_of_lookup_2 _ 1). vm_compute. reflexivity. }
  split; [exact Hrun|]. split; [exact Hin|].
  exact (loaded_ids_are_registered_modules exampleHost mainLoaded (worldAfter mainLoaded)
           2 "/main" Hrun Hin).
Defined.

(** X21: an internal module stays registered under its id.  In every run,
    each internal module of the heap is the object the registry holds under
    the module's id; so no two internal modules have the same id, and an
    internal module is never replaced in the registry. *)
Theorem internal_modules_stay_registered
    (host : Host) (schedule : list Choice) (w : World) (module : nat) (m : Module) :
  run host schedule (initialWorld host) = Some w ->
  heap (loader w) !! module = Some (OModule m) ->
  mapGet (m_id m) (modulesById (loader w)) = Some module
  /\ forall module' m',
       heap (loader w) !! module' = Some (OModule m') -> m_id m' = m_id m -> module' = module.
Proof.
  intros Hrun Hm. pose proof (reachable_ok host schedule w Hrun) as [Hcons _ _].
  pose proof (modules_registered _ _ Hcons) as Hreg. split; [by apply Hreg|].
  intros module' m' Hm' Hid. apply Hreg in Hm, Hm'. rewrite Hid in Hm'. congruence.
Qed.

Lemma internal_modules_stay_registered_witness :
  run exampleHost sharedThenInternal (initialWorld exampleHost)
  = Some (worldAfter sharedThenInternal)
  /\ heap (loader (worldAfter sharedThenInternal)) !! 2
     = Some (OModule (moduleAfter sharedThenInternal 2))
  /\ mapGet (m_id (moduleAfter sharedThenInternal 2))
            (modulesById (loader (worldAfter sharedThenInternal))) = Some 2.
Proof.
  assert (Hrun : run exampleHost sharedThenInternal (initialWorld exampleHost)
                 = Some (worldAfter sharedThenInternal)).
  { apply worldAfter_run. vm_compute. reflexivity. }
  assert (Hm : heap (loader (worldAfter sharedThenInternal)) !! 2
               = Some (OModule (moduleAfter sharedThenInternal 2)))
    by (vm_compute; reflexivity).
  split; [exact Hrun|]. split; [exact Hm|].
  exact (proj1 (internal_modules_stay_registered exampleHost sharedThenInternal
                  (worldAfter sharedThenInternal) 2 (moduleAfter sharedThenInternal 2)
                  Hrun Hm)).
Defined.


(** ** Memoized resolutions, source descriptions and the chain of batches *)

(** X22: a memoized resolution is reused.  When [resolvedIds] of the
    importing module holds a resolution for the specifier, the expression
    shared by the static and the dynamic path returns it at once: no resolver
    is asked, nothing is warned, and neither the modules nor the registry
    change. *)
Theorem memoized_resolution_is_reused
    (host : Host) (module : nat) (specifier : string) (st : Loader) (m : Module)
    (memo : ResolvedId) :
  heap st !! module = Some (OModule m) ->
  m_resolvedIds m !! specifier = Some memo ->
  exists st',
    runSync (resolveMemoized host module specifier) st = Some (st', inr memo)
    /\ heap st' = heap st
    /\ modulesById st' = modulesById st
    /\ trace st' = trace st.
Proof.
  intros Hm Hmemo. unfold resolveMemoized.
  rewrite runSync_bind, (runSync_readModule _ _ _ Hm). cbv iota beta.
  rewrite Hmemo, runSync_bind. simpl (runSync (Ret memo) st). cbv iota beta.
  rewrite runSync_bind, (runSync_readModule _ _ _ Hm). cbv iota beta.
  simpl. eexists. split; [reflexivity|]. simpl. split_and!; try done.
  apply list_eq. intros i. destruct (decide (i = module)) as [->|Hi].
  - rewrite list_lookup_alter_eq, Hm. simpl. rewrite insert_id by done. by destruct m.
  - by rewrite list_lookup_alter_ne.
Qed.

(** After the dynamic path has stored a resolution of [dep] in module
    [0]. *)
Lemma memoized_resolution_is_reused_witness :
  heap (loaderAfter dynamicPathStores) !! 0
  = Some (OModule (moduleAfter dynamicPathStores 0))
  /\ m_resolvedIds (moduleAfter dynamicPathStores 0) !! "dep"
     = Some {| rid_external := false; rid_id := "/a/x"; rid_moduleSideEffects := true;
               rid_syntheticNamedExports := false |}
  /\ exists st',
      runSync (resolveMemoized exampleHost 0 "dep") (loaderAfter dynamicPathStores)
      = Some (st', inr {| rid_external := false; rid_id := "/a/x";
                          rid_moduleSideEffects := true;
                          rid_syntheticNamedExports := false |})
      /\ heap st' = heap (loaderAfter dynamicPathStores).
Proof.
  assert (Hm : heap (loaderAfter dynamicPathStores) !! 0
               = Some (OModule (moduleAfter dynamicPathStores 0)))
    by (vm_compute; reflexivity).
  assert (Hmemo : m_resolvedIds (moduleAfter dynamicPathStores 0) !! "dep"
                  = Some {| rid_external := false; rid_id := "/a/x";
                            rid_moduleSideEffects := true;
                            rid_syntheticNamedExports := false |})
    by (vm_compute; reflexivity).
  destruct (memoized_resolution_is_reused exampleHost 0 "dep" (loaderAfter dynamicPathStores)
              (moduleAfter dynamicPathStores 0) _ Hm Hmemo) as (st' & Hrun & Hheap & _).
  split; [exact Hm|]. split; [exact Hmemo|]. exists st'. split; [exact Hrun|exact Hheap].
Defined.

(** X23: the flags of a source description.  Without a cached module, the
    [moduleSideEffects] and [syntheticNamedExports] the load hook gives are
    written to the module before the transformer is called, and only
    booleans are written; the transformer's result then becomes the source of
    the module, and its error is the error of the load. *)
Theorem addModuleSource_applies_flags_before_transform
    (host : Host) (id : string) (importer : option string) (module : nat)
    (sourceDescription : SourceDescription) :
  cachedModules host !! id = None ->
  exists k,
    addModuleSource host id importer module = AwaitExt (callLoadHook id) k
    /\ forall st, exists k',
         runPrefix (k (replyLoad (LObject sourceDescription))) st
         = (let st1 := match sd_moduleSideEffects sourceDescription with
                       | Some b => set_heap (alter (writeObj (W_moduleSideEffects b)) module) st
                       | None => st
                       end in
            match sd_syntheticNamedExports sourceDescription with
            | Some b => set_heap (alter (writeObj (W_syntheticNamedExports b)) module) st1
            | None => st1
            end,
            AwaitExt (callTransform sourceDescription module id) k')
         /\ (forall st' info,
               runSync (k' (replyTransform info)) st'
               = Some (set_heap (alter (writeObj (W_source info)) module) st', inr tt))
         /\ (forall st' message,
               runSync (k' (replyReject message)) st' = Some (st', inl (errRejected message))).
Proof.
  intros Hnone. eexists. split; [reflexivity|]. intros st. simpl. rewrite Hnone.
  destruct (sd_moduleSideEffects sourceDescription),
           (sd_syntheticNamedExports sourceDescription); simpl;
    eexists; (split; [reflexivity|]); split; done.
Qed.

(** A host without cache; the load hook says the module has no side
    effects. *)
Lemma addModuleSource_applies_flags_before_transform_witness :
  cachedModules exampleHost !! "/a" = None
  /\ exists k,
      addModuleSource exampleHost "/a" None 0 = AwaitExt (callLoadHook "/a") k
      /\ forall st, exists k',
           runPrefix (k (replyLoad (LObject {| sd_code := "code";
                                               sd_moduleSideEffects := Some false;
                                               sd_syntheticNamedExports := None |}))) st
           = (set_heap (alter (writeObj (W_moduleSideEffects false)) 0) st,
              AwaitExt (callTransform {| sd_code := "code";
                                         sd_moduleSideEffects := Some false;
                                         sd_syntheticNamedExports := None |} 0 "/a") k').
Proof.
  assert (Hnone : cachedModules exampleHost !! "/a" = None) by reflexivity.
  destruct (addModuleSource_applies_flags_before_transform exampleHost "/a" None 0
              {| sd_code := "code"; sd_moduleSideEffects := Some false;
                 sd_syntheticNamedExports := None |} Hnone) as (k & Hfirst & Hnext).
  split; [exact Hnone|]. exists k. split; [exact Hfirst|].
  intros st. destruct (Hnext st) as (k' & Hprefix & _). exists k'. exact Hprefix.
Defined.

Lemma insert_at_length {A} (l : list A) (x y : A) : <[length l := x]> (l ++ [y]) = l ++ [x].
Proof. induction l as [|a l IH]; simpl; [done|]. by rewrite IH. Qed.

(** X24: batches are chained.  In its first turn [awaitLoadModulesPromise]
    starts the combination of the new promise with the latest one and makes
    it the latest, then starts [getCombinedPromise], which waits for that
    combination; the caller waits for [getCombinedPromise].  No collaborator
    is called, and nothing else of the loader changes. *)
Theorem awaitLoadModulesPromise_chains_behind_the_latest
    (host : Host) (fuel : nat) (self : Promise) (loadNewModulesPromise : Promise)
    (w : World) :
  exists combined getCombined waiting,
    turn host (S fuel) self (awaitLoadModulesPromise loadNewModulesPromise) w
    = Some ({| loader := set_latestLoadModulesPromise (length (pool w)) (loader w);
               pool := pool w
                       ++ [TJoin [loadNewModulesPromise; latestLoadModulesPromise (loader w)]
                                 combined;
                           TJoin [length (pool w)] getCombined];
               calls := calls w |},
            TJoin [S (length (pool w))] waiting).
Proof.
  unfold awaitLoadModulesPromise.
  cbn [bind get]. rewrite turn_Get. cbn [bind spawn]. rewrite turn_Spawn_S.
  cbn [body bind awaitAll]. rewrite turn_AwaitAll.
  unfold setTask. cbn [loader pool calls]. rewrite insert_at_length.
  cbn [bind modify]. rewrite turn_Get, turn_Put. cbn [bind]. unfold withLoader.
  cbn [loader pool calls]. rewrite turn_Spawn_S.
  cbn [body loader pool calls]. unfold getCombinedPromise.
  cbn [bind get]. rewrite turn_Get. cbn [loader latestLoadModulesPromise set_latestLoadModulesPromise].
  unfold awaitPromise at 1. cbn [bind awaitAll]. rewrite turn_AwaitAll.
  unfold setTask. cbn [loader pool calls].
  rewrite insert_at_length, length_app. cbn [length]. rewrite Nat.add_1_r.
  unfold awaitPromise. cbn [bind awaitAll]. rewrite turn_AwaitAll.
  rewrite <- (assoc_L (++)). simpl. eauto.
Qed.
